(** * External-change reconciliation of the deployment manifest

    A shallow embedding of
    [src/extensions/mod_management/util/externalChanges.ts]
    ([applyFileActions], [checkForExternalChanges],
    [dealWithExternalChanges]) together with the two helpers of
    [src/util/util.ts] it uses ([setdefault], [truthy]), and the
    properties of the reconciliation pass proved about it.

    Promises are modelled by a state-and-error monad over a [World] that
    holds the file system, the traces of the effects the code performs
    (file operations, log lines, emitted events, activator queries, shown
    dialogs), the redux store state and the heap cell of the manifest
    object the caller shares with [dealWithExternalChanges]. *)

From stdpp Require Import gmap strings list fin_maps.
From Stdlib Require Import ZArith.

Local Open Scope string_scope.
Local Open Scope Z_scope.
Local Open Scope list_scope.

(** ** Data model *)

(** The closed set of actions of [IFileEntry.action]. *)
Inductive FileAction :=
  | Aimport | Adelete | Adrop | Arestore | Anewest | Anop.

#[global] Instance FileAction_eq_dec : EqDecision FileAction.
Proof. solve_decision. Defined.

(** The string each action is written as in the source. *)
Definition action_name (a : FileAction) : string :=
  match a with
  | Aimport => "import"
  | Adelete => "delete"
  | Adrop => "drop"
  | Arestore => "restore"
  | Anewest => "newest"
  | Anop => "nop"
  end.

(** One row of the manifest.  The declaration of [IDeployedFile] is not part
    of the sources at hand; the fields are the ones the code and the data
    model name. *)
Module IDeployedFile.
Record t := mk {
  relPath : string;
  source : string;
  time : Z;
}.
End IDeployedFile.

#[global] Instance IDeployedFile_eq_dec : EqDecision IDeployedFile.t.
Proof. solve_decision. Defined.

(** One decision.  [filePath] is [None] where the JavaScript value is
    [undefined]; the two modification times are the numeric values the
    comparison [>] of two [Date]s compares. *)
Module IFileEntry.
Record t := mk {
  filePath : option string;
  source : string;
  action : FileAction;
  sourceModified : Z;
  destModified : Z;
  modTypeId : string;
}.
End IFileEntry.

(** One discrepancy reported by the deployment method. *)
Module IFileChange.
Record t := mk {
  filePath : string;
  source : string;
  changeType : string;
}.
End IFileChange.

Module IProfile.
Record t := mk {
  id : string;
  gameId : string;
}.
End IProfile.

(** The part of the store state the code reads. *)
Module IState.
Record t := mk {
  profiles : gmap string IProfile.t;
  activeProfileId : option string;
}.
End IState.

(** Modelled from the spec: the selectors [profileById], [activeProfile] and
    [activeGameId] of [util/selectors] are not part of the sources at hand.
    The profile store resolves a profile id to its profile, the active
    profile is the one the store names, and the active game is the game of
    the active profile. *)
Definition profileById (state : IState.t) (profileId : string) : option IProfile.t :=
  IState.profiles state !! profileId.

Definition activeProfile (state : IState.t) : option IProfile.t :=
  match IState.activeProfileId state with
  | Some pid => IState.profiles state !! pid
  | None => None
  end.

Definition activeGameId (state : IState.t) : option string :=
  match activeProfile state with
  | Some p => Some (IProfile.gameId p)
  | None => None
  end.

(** [getSafe(state, ['persistent', 'profiles', profileId], undefined)] *)
Definition getSafe_profile (state : IState.t) (profileId : string) : option IProfile.t :=
  IState.profiles state !! profileId.

(** ** Errors, effects and the world *)

Record FsError := mkFsError {
  code : string;
  path : string;
}.

Inductive Error :=
  | InvalidFilePath                 (* new Error('invalid file path') *)
  | TypeError                       (* a property of undefined, a non-string path *)
  | ProcessCanceled (msg : string)
  | FsFailure (e : FsError)
  | OtherError (msg : string).

Inductive FsOp :=
  | OpRemove (p : string)
  | OpMove (src dst : string) (overwrite : bool).

#[global] Instance FsOp_eq_dec : EqDecision FsOp.
Proof. solve_decision. Defined.

Record Event := mkEvent {
  ev_name : string;
  ev_gameId : option string;
  ev_modId : string;
}.

#[global] Instance Event_eq_dec : EqDecision Event.
Proof. solve_decision. Defined.

Record Query := mkQuery {
  q_gameId : string;
  q_stagingPath : string;
  q_modPath : option string;
  q_manifest : list IDeployedFile.t;
}.

(** A reference to a manifest object [{ [typeId: string]: IDeployedFile[] }]. *)
Definition ref := positive.

Record World {FS : Type} := mkWorld {
  w_fs : FS;
  w_ops : list FsOp;
  w_log : list (string * string);
  w_events : list Event;
  w_queries : list Query;
  w_dialogs : list (gmap string (list IFileChange.t));
  w_state : IState.t;
  w_heap : gmap ref (gmap string (list IDeployedFile.t));
}.
Arguments World : clear implicits.
Arguments mkWorld {FS}.

(** The file-system module [util/fs]: an operation changes the file system
    and either succeeds or fails with an error carrying a code. *)
Class FileSystem (FS : Type) := {
  removeAsync : string → FS → FS * option FsError;
  moveAsync : string → string → bool → FS → FS * option FsError;
}.

(** What the code needs of node: [path.join] on strings and the order in
    which [Object.keys] lists the keys of an object, which is the order the
    keys were inserted in and is not recorded by the map. *)
Class NodeRuntime := {
  path_join : list string → string;
  Object_keys : ∀ {V : Type}, gmap string V → list string;
  Object_keys_perm : ∀ (V : Type) (m : gmap string V),
      Object_keys m ≡ₚ (map_to_list m).*1;
}.

(** The deployment method, as far as this code uses it. *)
Record IDeploymentMethod (FS : Type) := mkActivator {
  externalChanges :
    string → string → option string → list IDeployedFile.t → FS →
    Error + list IFileChange.t;
}.
Arguments externalChanges {FS}.

(** The extension api, as far as it is not state: the dialog that
    [api.store.dispatch(showExternalChanges(changes))] resolves to. *)
Record IExtensionApi := mkApi {
  dispatch_showExternalChanges :
    gmap string (list IFileChange.t) → Error + option (list IFileEntry.t);
}.

(** ** Promises *)

Inductive Outcome (A : Type) :=
  | Resolved (a : A)
  | Rejected (e : Error).
Arguments Resolved {A}.
Arguments Rejected {A}.

Section Promise.
Context {FS : Type}.

Definition M (A : Type) : Type := World FS → Outcome A * World FS.

Definition ret {A} (a : A) : M A := fun w => (Resolved a, w).
Definition reject {A} (e : Error) : M A := fun w => (Rejected e, w).

(** [p.then(f)] *)
Definition bind {A B} (p : M A) (f : A → M B) : M B :=
  fun w =>
    match p w with
    | (Resolved a, w') => f a w'
    | (Rejected e, w') => (Rejected e, w')
    end.

(** [p.catch({ code }, handler)]: only errors that carry the code are
    handled. *)
Definition catch_code {A} (c : string) (p : M A) (handler : FsError → M A) : M A :=
  fun w =>
    match p w with
    | (Rejected (FsFailure err), w') =>
        if decide (code err = c) then handler err w'
        else (Rejected (FsFailure err), w')
    | r => r
    end.

(** What a mapper hands to [Promise.map]: it threw or returned an already
    rejected promise, or it returned a pending promise whose work is
    [task]. *)
Inductive Started (A : Type) :=
  | Thrown (e : Error)
  | InFlight (task : M A).
Arguments Thrown {A}.
Arguments InFlight {A}.

(** Bluebird's [Promise.map] without a concurrency limit calls the mapper
    on the elements in order.  A mapper that throws or returns a rejected
    promise rejects the result at once and no later mapper is called;
    the operations started before go on. *)
Fixpoint start_all {A B} (f : A → Started B) (l : list A)
  : list (M B) * option Error :=
  match l with
  | [] => ([], None)
  | x :: l' =>
      match f x with
      | Thrown e => ([], Some e)
      | InFlight t => let '(ts, r) := start_all f l' in (t :: ts, r)
      end
  end.

(** The started operations act on different paths; the model completes
    them one after the other, in the order they were started. *)
Fixpoint settle_all {B} (ts : list (M B)) (w : World FS)
  : list (Outcome B) * World FS :=
  match ts with
  | [] => ([], w)
  | t :: ts' =>
      let '(o, w1) := t w in
      let '(os, w2) := settle_all ts' w1 in
      (o :: os, w2)
  end.

Fixpoint collect {B} (os : list (Outcome B)) : Outcome (list B) :=
  match os with
  | [] => Resolved []
  | Resolved b :: os' =>
      match collect os' with
      | Resolved bs => Resolved (b :: bs)
      | Rejected e => Rejected e
      end
  | Rejected e :: _ => Rejected e
  end.

Definition Promise_map {A B} (l : list A) (f : A → Started B) : M (list B) :=
  fun w =>
    let '(ts, thrown) := start_all f l in
    let '(os, w') := settle_all ts w in
    match thrown with
    | Some e => (Rejected e, w')
    | None => (collect os, w')
    end.

(** [Promise.mapSeries]: the callback is called on the next element once
    the promise of the previous one is resolved; the first rejection ends
    the iteration. *)
Fixpoint Promise_mapSeries {A B} (l : list A) (f : A → M B) : M (list B) :=
  match l with
  | [] => ret []
  | x :: l' =>
      bind (f x) (fun b => bind (Promise_mapSeries l' f) (fun bs => ret (b :: bs)))
  end.

(** [Promise.each], sequential in the same way.  The callback's writes to
    a variable of the enclosing function are threaded as [s]; the value
    is that variable once the iteration is over. *)
Fixpoint Promise_each {A S} (l : list A) (f : A → S → M S) (s : S) : M S :=
  match l with
  | [] => ret s
  | x :: l' => bind (f x s) (fun s' => Promise_each l' f s')
  end.
End Promise.

Arguments M : clear implicits.
Arguments Started : clear implicits.
Arguments Thrown {FS A}.
Arguments InFlight {FS A}.

Notation "'await' x ':=' p 'in' q" := (bind p (fun x => q))
  (at level 10, x name, p at level 100, q at level 200,
   format "'[v' 'await'  x  ':='  p  'in' '/' q ']'").

(** ** The helpers of [util/util.ts] *)

(** [truthy(val)] is [!!val]; on a path: neither undefined nor empty. *)
Definition truthy (val : option string) : bool :=
  match val with
  | Some s => negb (String.eqb s "")
  | None => false
  end.

(** [setdefault(obj, key, def)]: the object after the call and the value
    returned. *)
Definition setdefault {T} (obj : gmap string T) (key : string) (def : T)
  : gmap string T * T :=
  match obj !! key with
  | None => (<[key:=def]> obj, def)
  | Some v => (obj, v)
  end.

(** ** Effects on the world *)

Section Effects.
Context {FS : Type} {fsys : FileSystem FS}.

Definition do_op (fs' : FS) (op : FsOp) (w : World FS) : World FS :=
  mkWorld fs' (w_ops w ++ [op]) (w_log w) (w_events w) (w_queries w)
          (w_dialogs w) (w_state w) (w_heap w).

Definition add_log (line : string * string) (w : World FS) : World FS :=
  mkWorld (w_fs w) (w_ops w) (w_log w ++ [line]) (w_events w) (w_queries w)
          (w_dialogs w) (w_state w) (w_heap w).

Definition add_events (evs : list Event) (w : World FS) : World FS :=
  mkWorld (w_fs w) (w_ops w) (w_log w) (w_events w ++ evs) (w_queries w)
          (w_dialogs w) (w_state w) (w_heap w).

Definition add_query (q : Query) (w : World FS) : World FS :=
  mkWorld (w_fs w) (w_ops w) (w_log w) (w_events w) (w_queries w ++ [q])
          (w_dialogs w) (w_state w) (w_heap w).

Definition add_dialog (c : gmap string (list IFileChange.t)) (w : World FS)
  : World FS :=
  mkWorld (w_fs w) (w_ops w) (w_log w) (w_events w) (w_queries w)
          (w_dialogs w ++ [c]) (w_state w) (w_heap w).

Definition set_heap (h : gmap ref (gmap string (list IDeployedFile.t)))
           (w : World FS) : World FS :=
  mkWorld (w_fs w) (w_ops w) (w_log w) (w_events w) (w_queries w)
          (w_dialogs w) (w_state w) h.

Definition of_fs_result (r : option FsError) : Outcome unit :=
  match r with
  | None => Resolved tt
  | Some e => Rejected (FsFailure e)
  end.

Definition fs_removeAsync (p : string) : M FS unit :=
  fun w =>
    let '(fs', r) := removeAsync p (w_fs w) in
    (of_fs_result r, do_op fs' (OpRemove p) w).

Definition fs_moveAsync (src dst : string) (overwrite : bool) : M FS unit :=
  fun w =>
    let '(fs', r) := moveAsync src dst overwrite (w_fs w) in
    (of_fs_result r, do_op fs' (OpMove src dst overwrite) w).

Definition log (level message : string) : M FS unit :=
  fun w => (Resolved tt, add_log (level, message) w).

Definition getState : M FS IState.t :=
  fun w => (Resolved (w_state w), w).

Definition events_emit (evs : list Event) : M FS unit :=
  fun w => (Resolved tt, add_events evs w).

(** [activator.externalChanges(gameId, stagingPath, modPath, manifest)] *)
Definition activator_externalChanges (activator : IDeploymentMethod FS)
           (gameId stagingPath : string) (modPath : option string)
           (manifest : list IDeployedFile.t) : M FS (list IFileChange.t) :=
  fun w =>
    let w' := add_query (mkQuery gameId stagingPath modPath manifest) w in
    match externalChanges activator gameId stagingPath modPath manifest (w_fs w) with
    | inl e => (Rejected e, w')
    | inr cs => (Resolved cs, w')
    end.

(** [api.store.dispatch(showExternalChanges(changes))] *)
Definition store_dispatch (api : IExtensionApi)
           (changes : gmap string (list IFileChange.t))
  : M FS (option (list IFileEntry.t)) :=
  fun w =>
    let w' := add_dialog changes w in
    match dispatch_showExternalChanges api changes with
    | inl e => (Rejected e, w')
    | inr r => (Resolved r, w')
    end.

(** [obj[key]] on the manifest object behind a reference; a reference the
    heap does not know stands for a value that is not an object. *)
Definition get_prop (obj : ref) (key : string) : M FS (option (list IDeployedFile.t)) :=
  fun w =>
    match w_heap w !! obj with
    | Some o => (Resolved (o !! key), w)
    | None => (Rejected TypeError, w)
    end.

(** [obj[key] = value] *)
Definition set_prop (obj : ref) (key : string) (value : list IDeployedFile.t)
  : M FS unit :=
  fun w =>
    match w_heap w !! obj with
    | Some o => (Resolved tt, set_heap (<[obj := <[key := value]> o]> (w_heap w)) w)
    | None => (Rejected TypeError, w)
    end.

(** The object behind a reference, for [Object.keys(obj)]. *)
Definition deref (obj : ref) : M FS (gmap string (list IDeployedFile.t)) :=
  fun w =>
    match w_heap w !! obj with
    | Some o => (Resolved o, w)
    | None => (Rejected TypeError, w)
    end.
End Effects.

(** ** [externalChanges.ts] *)

Section ExternalChanges.
Context {FS : Type} {fsys : FileSystem FS} {node : NodeRuntime}.

(** [path.join(...)] throws a [TypeError] when an argument is not a string. *)
Definition js_path_join (parts : list (option string)) : Error + string :=
  match mapM id parts with
  | Some ps => inr (path_join ps)
  | None => inl TypeError
  end.

(** The action a decision is grouped under (lines 38-40). *)
Definition effectiveAction (value : IFileEntry.t) : FileAction :=
  match IFileEntry.action value with
  | Anewest =>
      if IFileEntry.sourceModified value >? IFileEntry.destModified value
      then Adrop else Aimport
  | a => a
  end.

(** The reducer of lines 37-44: [setdefault(prev, action, []).push(value)]. *)
Definition groupStep (prev : gmap string (list IFileEntry.t)) (value : IFileEntry.t)
  : gmap string (list IFileEntry.t) :=
  let action := action_name (effectiveAction value) in
  let '(prev', arr) := setdefault prev action [] in
  <[action := arr ++ [value]]> prev'.

Definition actionGroups (fileActions : list IFileEntry.t)
  : gmap string (list IFileEntry.t) :=
  fold_left groupStep fileActions ∅.

(** [actionGroups[key] || []] *)
Definition group (groups : gmap string (list IFileEntry.t)) (key : string)
  : list IFileEntry.t :=
  default [] (groups !! key).

Definition dropMapper (outputPath : option string) (entry : IFileEntry.t)
  : Started FS unit :=
  if truthy (IFileEntry.filePath entry) then
    match js_path_join [outputPath; IFileEntry.filePath entry] with
    | inr p => InFlight (fs_removeAsync p)
    | inl e => Thrown e
    end
  else Thrown InvalidFilePath.

Definition deleteMapper (sourcePath : string) (entry : IFileEntry.t)
  : Started FS unit :=
  if truthy (IFileEntry.filePath entry) then
    match js_path_join [Some sourcePath; Some (IFileEntry.source entry);
                        IFileEntry.filePath entry] with
    | inr p => InFlight (fs_removeAsync p)
    | inl e => Thrown e
    end
  else Thrown InvalidFilePath.

Definition importMapper (sourcePath : string) (outputPath : option string)
           (entry : IFileEntry.t) : Started FS unit :=
  match js_path_join [Some sourcePath; Some (IFileEntry.source entry);
                      IFileEntry.filePath entry] with
  | inl e => Thrown e
  | inr source =>
      match js_path_join [outputPath; IFileEntry.filePath entry] with
      | inl e => Thrown e
      | inr deployed =>
          InFlight
            (catch_code "ENOENT"
               (await _ := fs_removeAsync source in
                fs_moveAsync deployed source true)
               (fun err => log "warn" "file disappeared"))
      end
  end.

(** The paths whose manifest row is removed (lines 77-85). *)
Definition dropSet (groups : gmap string (list IFileEntry.t))
  : gset (option string) :=
  list_to_set
    (map IFileEntry.filePath (group groups "restore")
     ++ map IFileEntry.filePath (group groups "drop")
     ++ map IFileEntry.filePath (group groups "delete")
     ++ map IFileEntry.filePath (group groups "import")).

Definition rebuild (groups : gmap string (list IFileEntry.t))
           (lastDeployment : list IDeployedFile.t) : list IDeployedFile.t :=
  filter (fun entry => Some (IDeployedFile.relPath entry) ∉ dropSet groups)
         lastDeployment.

(** [Set.add] keeps the order of first insertion. *)
Definition Set_add (s : list string) (x : string) : list string :=
  if decide (x ∈ s) then s else s ++ [x].

(** Lines 91-97. *)
Definition affectedMods (fileActions : list IFileEntry.t) : list string :=
  fold_left
    (fun affected action =>
       if decide (IFileEntry.action action
                    ∈ [Aimport; Anewest; Anop; Adelete; Adrop])
       then Set_add affected (IFileEntry.source action)
       else affected)
    fileActions [].

(** Lines 99-111. *)
Definition eventGameId (state : IState.t) (profileId : option string)
  : option string :=
  let gameId :=
    match profileId with
    | Some pid =>
        match profileById state pid with
        | Some profile => Some (IProfile.id profile)
        | None => None
        end
    | None => None
    end in
  match gameId with
  | None => activeGameId state
  | Some g => Some g
  end.

Definition applyFileActions (api : IExtensionApi) (profileId : option string)
           (sourcePath : string) (outputPath : option string)
           (lastDeployment : list IDeployedFile.t)
           (fileActions : option (list IFileEntry.t))
  : M FS (list IDeployedFile.t) :=
  match fileActions with
  | None => ret lastDeployment
  | Some fileActions =>
      let groups := actionGroups fileActions in
      await _ := Promise_map (group groups "drop") (dropMapper outputPath) in
      await _ := Promise_map (group groups "delete") (deleteMapper sourcePath) in
      await _ := Promise_map (group groups "import")
                             (importMapper sourcePath outputPath) in
      let newDeployment := rebuild groups lastDeployment in
      let lastDeployment := newDeployment in
      await state := getState in
      let gameId := eventGameId state profileId in
      await _ := events_emit
                   (map (mkEvent "mod-content-changed" gameId)
                        (affectedMods fileActions)) in
      ret lastDeployment
  end.

(** The three steps of [applyFileActions] that act on files (lines 50-72),
    on their own. *)
Definition fileSteps (sourcePath : string) (outputPath : option string)
           (fileActions : list IFileEntry.t) : M FS unit :=
  let groups := actionGroups fileActions in
  await _ := Promise_map (group groups "drop") (dropMapper outputPath) in
  await _ := Promise_map (group groups "delete") (deleteMapper sourcePath) in
  await _ := Promise_map (group groups "import")
                         (importMapper sourcePath outputPath) in
  ret tt.

(** The callback of lines 141-151; [changes] is the variable of line 127. *)
Definition checkType (activator : IDeploymentMethod FS) (profile : IProfile.t)
           (stagingPath : string) (modPaths : gmap string string)
           (lastDeployment : ref) (typeId : string)
           (changes : gmap string (list IFileChange.t))
  : M FS (gmap string (list IFileChange.t)) :=
  await manifest := get_prop lastDeployment typeId in
  match manifest with
  | None => reject TypeError
  | Some manifest =>
      await _ := log "debug" "checking external changes" in
      await fileChanges :=
        activator_externalChanges activator (IProfile.gameId profile)
                                  stagingPath (modPaths !! typeId) manifest in
      if (0 <? length fileChanges)%nat
      then ret (<[typeId := fileChanges]> changes)
      else ret changes
  end.

(** The profile of the pass (lines 134-136). *)
Definition passProfile (state : IState.t) (profileId : option string)
  : option IProfile.t :=
  match profileId with
  | Some pid => getSafe_profile state pid
  | None => activeProfile state
  end.

Definition checkForExternalChanges (api : IExtensionApi)
           (activator : IDeploymentMethod FS) (profileId : option string)
           (stagingPath : string) (modPaths : gmap string string)
           (lastDeployment : ref)
  : M FS (gmap string (list IFileChange.t)) :=
  let changes : gmap string (list IFileChange.t) := ∅ in
  await _ := log "debug" "determine external changes" in
  await state := getState in
  let profile := passProfile state profileId in
  match profile with
  | None => reject (ProcessCanceled "Profile no longer exists.")
  | Some profile =>
      Promise_each (Object_keys modPaths)
                   (checkType activator profile stagingPath modPaths lastDeployment)
                   changes
  end.

(** The callback of lines 172-175.  [typeId] is a key of the object, so
    [lastDeployment[typeId]] is a manifest; [fileActions.filter] throws when
    the dialog resolved to undefined. *)
Definition reconcileType (api : IExtensionApi) (profileId : option string)
           (stagingPath : string) (modPaths : gmap string string)
           (lastDeployment : ref) (fileActions : option (list IFileEntry.t))
           (typeId : string) : M FS (list IDeployedFile.t) :=
  await manifest := get_prop lastDeployment typeId in
  match manifest, fileActions with
  | Some manifest, Some fileActions =>
      await newLastDeployment :=
        applyFileActions api profileId stagingPath (modPaths !! typeId) manifest
          (Some (filter (fun action => IFileEntry.modTypeId action = typeId)
                        fileActions)) in
      await _ := set_prop lastDeployment typeId newLastDeployment in
      ret newLastDeployment
  | _, _ => reject TypeError
  end.

Definition dealWithExternalChanges (api : IExtensionApi)
           (activator : IDeploymentMethod FS) (profileId : option string)
           (stagingPath : string) (modPaths : gmap string string)
           (lastDeployment : ref)
  : M FS (list (list IDeployedFile.t)) :=
  await changes :=
    checkForExternalChanges api activator profileId stagingPath modPaths
                            lastDeployment in
  await fileActions :=
    (let count := length (Object_keys changes) in
     if (0 <? count)%nat then
       await _ := log "info" "found external changes" in
       store_dispatch api changes
     else ret (Some [])) in
  await obj := deref lastDeployment in
  Promise_mapSeries (Object_keys obj)
    (reconcileType api profileId stagingPath modPaths lastDeployment fileActions).
End ExternalChanges.

(** ** A concrete platform

    A file system that maps a path to the content of the file at it, and a
    runtime that joins paths with a slash.  Removing a file that is not
    there succeeds; moving one fails with [ENOENT]. *)

Module Sample.
Definition Files := gmap string string.

#[export] Instance files_fs : FileSystem Files := {
  removeAsync p fs := (delete p fs, None);
  moveAsync src dst overwrite fs :=
    match fs !! src with
    | None => (fs, Some (mkFsError "ENOENT" src))
    | Some content =>
        match fs !! dst with
        | Some _ =>
            if overwrite then (<[dst := content]> (delete src fs), None)
            else (fs, Some (mkFsError "EEXIST" dst))
        | None => (<[dst := content]> (delete src fs), None)
        end
    end;
}.

#[export] Instance node : NodeRuntime := {
  path_join parts := String.concat "/" parts;
  Object_keys V m := (map_to_list m).*1;
  Object_keys_perm V m := reflexivity _;
}.

Definition api (answer : option (list IFileEntry.t)) : IExtensionApi :=
  mkApi (fun _ => inr answer).

(** A deployment method that reports every manifest row whose file is
    gone from the target directory. *)
Definition activator : IDeploymentMethod Files :=
  mkActivator Files
    (fun gameId stagingPath modPath manifest fs =>
       inr (omap (fun e : IDeployedFile.t =>
                    match fs !! String.concat "/" [default "" modPath;
                                                   IDeployedFile.relPath e] with
                    | Some _ => None
                    | None => Some (IFileChange.mk (IDeployedFile.relPath e)
                                                   (IDeployedFile.source e)
                                                   "deleted")
                    end) manifest)).

Definition profile1 : IProfile.t := IProfile.mk "profile1" "skyrim".

Definition state : IState.t :=
  IState.mk {[ "profile1" := profile1 ]} (Some "profile1").

Definition a_txt : IDeployedFile.t := IDeployedFile.mk "a.txt" "ModA" 100.
Definition b_txt : IDeployedFile.t := IDeployedFile.mk "b.txt" "ModB" 100.
Definition c_txt : IDeployedFile.t := IDeployedFile.mk "c.txt" "ModC" 100.

Definition manifest : list IDeployedFile.t := [a_txt; b_txt; c_txt].

Definition files : Files :=
  {[ "staging/ModA/a.txt" := "a0"; "staging/ModB/b.txt" := "b0";
     "staging/ModC/c.txt" := "c0";
     "game/a.txt" := "a0"; "game/b.txt" := "b1"; "game/c.txt" := "c0" ]}.

Definition world : World Files :=
  mkWorld files [] [] [] [] [] state {[ 1%positive := {[ "" := manifest ]} ]}.

Definition decision (p : string) (modId : string) (a : FileAction)
           (sourceModified destModified : Z) : IFileEntry.t :=
  IFileEntry.mk (Some p) modId a sourceModified destModified "".

(** Restore [a.txt], import [b.txt], leave [c.txt]. *)
Definition decisions : list IFileEntry.t :=
  [decision "a.txt" "ModA" Arestore 0 0; decision "b.txt" "ModB" Aimport 0 0;
   decision "c.txt" "ModC" Anop 0 0].


(** The world after [a.txt] was deleted from the target directory. *)
Definition world_deleted : World Files :=
  mkWorld (delete "game/a.txt" files) [] [] [] [] [] state
          {[ 1%positive := {[ "" := manifest ]} ]}.

(** A store without the profile. *)
Definition world_no_profile : World Files :=
  mkWorld files [] [] [] [] [] (IState.mk ∅ None)
          {[ 1%positive := {[ "" := manifest ]} ]}.

(** A manifest object that lacks the mod type [plugins]. *)
Definition modPaths : gmap string string :=
  {[ "" := "game"; "plugins" := "game/plugins" ]}.
End Sample.

(** ** The claims' own notions *)

(** A decision list invalidates the manifest row of a path: some decision
    for that path is a restore, drop, delete or import, a newest decision
    counting as the drop or import it resolves to. *)
Definition invalidates (fileActions : list IFileEntry.t) (p : string) : Prop :=
  Exists (fun d => IFileEntry.filePath d = Some p
                   ∧ effectiveAction d ∈ [Arestore; Adrop; Adelete; Aimport])
         fileActions.

#[global] Instance invalidates_dec fileActions p : Decision (invalidates fileActions p).
Proof. unfold invalidates. apply _. Defined.

(** A mod is affected by a decision list: it is the source of a decision
    whose action is import, newest, nop, delete or drop. *)
Definition affected (fileActions : list IFileEntry.t) (modId : string) : Prop :=
  Exists (fun d => IFileEntry.source d = modId
                   ∧ IFileEntry.action d ∈ [Aimport; Anewest; Anop; Adelete; Adrop])
         fileActions.

(** The decisions are well formed for a target directory: the directory is
    known, a decision that removes a file names the file, and a decision
    that imports one has a path. *)
Definition well_formed_decisions (outputPath : option string)
           (fileActions : list IFileEntry.t) : Prop :=
  is_Some outputPath
  ∧ ∀ d, d ∈ fileActions →
         match effectiveAction d with
         | Adrop | Adelete => truthy (IFileEntry.filePath d) = true
         | Aimport => is_Some (IFileEntry.filePath d)
         | _ => True
         end.

(** A file system on which removing never fails and an overwriting move
    fails only because the file is gone. *)
Definition reliable_fs (FS : Type) `{!FileSystem FS} : Prop :=
  (∀ p (fs : FS), (removeAsync p fs).2 = None)
  ∧ (∀ src dst (fs : FS) e, (moveAsync src dst true fs).2 = Some e → code e = "ENOENT").


(** A step that leaves everything but the file system, the trace of file
    operations and the log as it was. *)
Definition only_files {FS} (w w' : World FS) : Prop :=
  w_events w' = w_events w ∧ w_queries w' = w_queries w
  ∧ w_dialogs w' = w_dialogs w ∧ w_state w' = w_state w
  ∧ w_heap w' = w_heap w.

(** A step that leaves the manifest object and the store state alone. *)
Definition same_store {FS} (w w' : World FS) : Prop :=
  w_state w' = w_state w ∧ w_heap w' = w_heap w.

(** A step that at most logs and queries the deployment method. *)
Definition only_reads {FS} (w w' : World FS) : Prop :=
  w_fs w' = w_fs w ∧ w_ops w' = w_ops w ∧ w_events w' = w_events w
  ∧ w_dialogs w' = w_dialogs w ∧ w_state w' = w_state w
  ∧ w_heap w' = w_heap w.

(** The deployment method finds no discrepancy between the manifests of an
    object and the file system of a world. *)
Definition no_discrepancy {FS} (activator : IDeploymentMethod FS)
           (gameId stagingPath : string) (modPaths : gmap string string)
           (obj : gmap string (list IDeployedFile.t)) (w : World FS) : Prop :=
  ∀ typeId manifest,
    obj !! typeId = Some manifest →
    externalChanges activator gameId stagingPath (modPaths !! typeId) manifest
                    (w_fs w)
    = inr [].


(** The file operations a step adds to the trace all satisfy [P]. *)
Definition ops_added {FS} (P : FsOp → Prop) (w w' : World FS) : Prop :=
  ∃ new, w_ops w' = w_ops w ++ new ∧ Forall P new.

(** [t] relates every world to the world it leaves. *)
Definition preserves {FS A} (R : relation (World FS)) (t : M FS A) : Prop :=
  ∀ w, R w (t w).2.

(** ** Further notions *)



(** A step that leaves the files, the events, the store state and the
    manifest object as they were; it may log, query and show a dialog. *)
Definition untouched {FS} (w w' : World FS) : Prop :=
  w_fs w' = w_fs w ∧ w_ops w' = w_ops w ∧ w_events w' = w_events w
  ∧ w_state w' = w_state w ∧ w_heap w' = w_heap w.

(** A step that shows no dialog. *)
Definition same_dialogs {FS} (w w' : World FS) : Prop :=
  w_dialogs w' = w_dialogs w.

(** The elements of a list in the order of their first occurrence. *)
Definition first_occurrences (l : list string) : list string :=
  reverse (remove_dups (reverse l)).

(** The decision counts for the mods whose content changed (line 94). *)
Definition is_affecting (d : IFileEntry.t) : Prop :=
  IFileEntry.action d ∈ [Aimport; Anewest; Anop; Adelete; Adrop].

(** ** More of [util/util.ts] *)

From Stdlib Require Import Ascii.

(** [countIf(container, predicate)] (lines 19-23). *)
Definition countIf {T} (container : list T) (predicate : T → bool) : nat :=
  fold_left (fun count value => (count + (if predicate value then 1 else 0))%nat)
            container 0%nat.

(** [s.substr(start, length)] on integers, as ECMAScript defines it: a
    negative start counts from the end, the length is clamped to what is
    there, and a missing length takes the rest. *)
Definition js_substr (s : string) (start : Z) (len : option Z) : string :=
  let size := Z.of_nat (String.length s) in
  let intStart := if start <? 0 then Z.max (size + start) 0 else Z.min start size in
  let intLength :=
    match len with
    | None => size
    | Some l => Z.min (Z.max l 0) size
    end in
  let intEnd := Z.min (intStart + intLength) size in
  String.substring (Z.to_nat intStart) (Z.to_nat (intEnd - intStart)) s.

(** [midClip(input, maxLength)] (lines 58-67) for an integer [maxLength].
    [half] is [maxLength / 2], possibly with a fraction of one half;
    [substr] truncates its arguments towards zero, so [half - 2] arrives as
    [(maxLength - 4) ÷ 2] and [input.length - (half - 1)] as
    [(2 * input.length - maxLength + 2) ÷ 2]. *)
Definition midClip (input : string) (maxLength : Z) : string :=
  let length := Z.of_nat (String.length input) in
  if length <=? maxLength then input
  else
    (js_substr input 0 (Some ((maxLength - 4) ÷ 2))
     +:+ "..."
     +:+ js_substr input ((2 * length - maxLength + 2) ÷ 2) None)%string.

(** [s.split(sep)] for a separator of one character. *)
Fixpoint js_split (sep : Ascii.ascii) (s : string) : list string :=
  match s with
  | EmptyString => [EmptyString]
  | String c rest =>
      if Ascii.eqb c sep then EmptyString :: js_split sep rest
      else match js_split sep rest with
           | token :: tokens => String c token :: tokens
           | [] => [String c EmptyString]
           end
  end.

(** [input.split(path.sep).filter(token => token.length > 0)] *)
Definition path_tokens (sep : Ascii.ascii) (input : string) : list string :=
  filter (fun token => (0 < String.length token)%nat) (js_split sep input).

(** [tokens.every((token, idx) => childTokens[idx] === token)] *)
Definition every_at_index (tokens childTokens : list string) : bool :=
  forallb (fun '(idx, token) => bool_decide (childTokens !! idx = Some token))
          (imap pair tokens).

(** [isChildPath(child, parent, normalize)] (lines 257-274).  [sep] is
    [path.sep]; [normalize] is the function passed, or the one of the
    platform when none is. *)
Definition isChildPath (sep : Ascii.ascii) (platform_normalize : string → string)
           (child parent : string) (normalize : option (string → string)) : bool :=
  let normalize := default platform_normalize normalize in
  let childNorm := normalize child in
  let parentNorm := normalize parent in
  if decide (child = parent) then false
  else
    let tokens := path_tokens sep parentNorm in
    let childTokens := path_tokens sep childNorm in
    every_at_index tokens childTokens.

(** [isMajorDowngrade(previous, current)] (lines 393-402).  [semver.major]
    and [semver.minor] are given; [None] stands for the exception they
    throw on a string that is not a version. *)
Definition isMajorDowngrade (semver_major semver_minor : string → option Z)
           (previous current : string) : option bool :=
  match semver_major previous with
  | None => None
  | Some majorL =>
      match semver_major current with
      | None => None
      | Some majorR =>
          if negb (majorL =? majorR) then Some (majorL >? majorR)
          else
            match semver_minor previous with
            | None => None
            | Some minorL =>
                match semver_minor current with
                | None => None
                | Some minorR => Some (minorL >? minorR)
                end
            end
      end
  end.

(** * Properties *)

(** Closes a goal from the hypothesis [H] that a constructor is a member
    of a list of other constructors. *)
Ltac not_listed H :=
  rewrite !elem_of_cons, elem_of_nil in H;
  repeat (destruct H as [H|H]; [discriminate H|]);
  destruct H.

Lemma filter_all {A} (P : A → Prop) `{!∀ x, Decision (P x)} (l : list A) :
  (∀ x, x ∈ l → P x) → filter P l = l.
Proof.
  induction l as [|x l IH]; intros Hall; [done|].
  rewrite filter_cons_True by (apply Hall; left).
  f_equal. apply IH. intros y Hy. apply Hall. by right.
Qed.

Lemma filter_none {A} (P : A → Prop) `{!∀ x, Decision (P x)} (l : list A) :
  (∀ x, x ∈ l → ¬ P x) → filter P l = [].
Proof.
  induction l as [|x l IH]; intros Hall; [done|].
  rewrite filter_cons_False by (apply Hall; left).
  apply IH. intros y Hy. apply Hall. by right.
Qed.

(** ** Grouping *)

Lemma action_name_inj a b : action_name a = action_name b → a = b.
Proof. destruct a, b; simpl; intros E; try reflexivity; discriminate E. Qed.

Section Grouping.
Context {node : NodeRuntime}.

Lemma group_groupStep g v a :
  group (groupStep g v) (action_name a)
  = group g (action_name a) ++ (if decide (effectiveAction v = a) then [v] else []).
Proof.
  unfold groupStep, setdefault, group.
  destruct (decide (effectiveAction v = a)) as [->|Hne].
  - destruct (g !! action_name a) as [arr|] eqn:E; simpl.
    + by rewrite lookup_insert_eq.
    + rewrite insert_insert_eq. by rewrite lookup_insert_eq.
  - assert (action_name (effectiveAction v) ≠ action_name a) as Hn
        by (intros E; apply Hne, action_name_inj, E).
    destruct (g !! action_name (effectiveAction v)) as [arr|] eqn:E; simpl.
    + rewrite lookup_insert_ne by done. by rewrite app_nil_r.
    + rewrite !lookup_insert_ne by done. by rewrite app_nil_r.
Qed.

Lemma group_fold acts : ∀ g a,
  group (fold_left groupStep acts g) (action_name a)
  = group g (action_name a) ++ filter (fun v => effectiveAction v = a) acts.
Proof.
  induction acts as [|v acts IH]; intros g a; simpl.
  - by rewrite app_nil_r.
  - rewrite IH, group_groupStep, filter_cons.
    destruct (decide (effectiveAction v = a)); simpl.
    + by rewrite <- app_assoc.
    + by rewrite app_nil_r.
Qed.

(** The group of an action holds, in order, the decisions that resolve to
    it. *)
Lemma group_actionGroups acts a :
  group (actionGroups acts) (action_name a)
  = filter (fun v => effectiveAction v = a) acts.
Proof.
  unfold actionGroups. rewrite group_fold. unfold group.
  by rewrite lookup_empty.
Qed.

Lemma elem_of_group acts a v :
  v ∈ group (actionGroups acts) (action_name a) ↔ v ∈ acts ∧ effectiveAction v = a.
Proof. rewrite group_actionGroups, list_elem_of_filter. tauto. Qed.

Lemma elem_of_dropSet acts (p : option string) :
  p ∈ dropSet (actionGroups acts)
  ↔ ∃ d, d ∈ acts ∧ IFileEntry.filePath d = p
         ∧ effectiveAction d ∈ [Arestore; Adrop; Adelete; Aimport].
Proof.
  unfold dropSet. rewrite elem_of_list_to_set, !elem_of_app, !list_elem_of_fmap.
  change "restore" with (action_name Arestore).
  change "drop" with (action_name Adrop).
  change "delete" with (action_name Adelete).
  change "import" with (action_name Aimport).
  setoid_rewrite elem_of_group.
  split.
  - intros [H|[H|[H|H]]]; destruct H as (d & -> & Hd & Ha);
      exists d; rewrite Ha; repeat split; try done; set_solver.
  - intros (d & Hd & <- & Ha).
    rewrite !elem_of_cons in Ha.
    destruct Ha as [Ha|[Ha|[Ha|[Ha|Ha]]]]; [| | | |by apply elem_of_nil in Ha].
    + left. by exists d.
    + right; left. by exists d.
    + right; right; left. by exists d.
    + right; right; right. by exists d.
Qed.

(** The rebuilt manifest keeps, in order, the rows no decision
    invalidates. *)
Lemma rebuild_spec acts lastDeployment :
  rebuild (actionGroups acts) lastDeployment
  = filter (fun e => ¬ invalidates acts (IDeployedFile.relPath e)) lastDeployment.
Proof.
  unfold rebuild. apply list_filter_iff. intros e.
  rewrite elem_of_dropSet. unfold invalidates. rewrite Exists_exists.
  split; intros H (d & Hd & Hp & Ha); apply H; exists d; repeat split; try done.
Qed.
End Grouping.

(** ** Promises *)

Section PromiseFacts.
Context {FS : Type}.
Implicit Types w : World FS.

#[global] Instance only_files_preorder : PreOrder (@only_files FS).
Proof.
  split.
  - intros w. by repeat split.
  - intros w1 w2 w3 (?&?&?&?&?) (?&?&?&?&?). repeat split; congruence.
Qed.

#[global] Instance only_reads_preorder : PreOrder (@only_reads FS).
Proof.
  split.
  - intros w. by repeat split.
  - intros w1 w2 w3 (?&?&?&?&?&?) (?&?&?&?&?&?). repeat split; congruence.
Qed.

#[global] Instance same_store_preorder : PreOrder (@same_store FS).
Proof.
  split.
  - intros w. by split.
  - intros w1 w2 w3 [??] [??]. split; congruence.
Qed.

#[global] Instance ops_added_preorder P : PreOrder (@ops_added FS P).
Proof.
  split.
  - intros w. exists []. by rewrite app_nil_r.
  - intros w1 w2 w3 (n1 & E1 & F1) (n2 & E2 & F2).
    exists (n1 ++ n2). rewrite E2, E1, app_assoc. split; [done|].
    by apply Forall_app.
Qed.

Section Preserved.
Context (R : relation (World FS)) `{!PreOrder R}.

Lemma ret_preserves {A} (a : A) : preserves R (ret a).
Proof. intros w. simpl. reflexivity. Qed.

Lemma bind_preserves {A B} (p : M FS A) (f : A → M FS B) :
  preserves R p → (∀ a, preserves R (f a)) → preserves R (bind p f).
Proof.
  intros Hp Hf w. unfold bind. specialize (Hp w).
  destruct (p w) as [[a|e] w1]; simpl in *; [|done].
  etrans; [exact Hp|apply Hf].
Qed.

Lemma catch_code_preserves {A} c (p : M FS A) h :
  preserves R p → (∀ err, preserves R (h err)) → preserves R (catch_code c p h).
Proof.
  intros Hp Hh w. unfold catch_code. specialize (Hp w).
  destruct (p w) as [[a|e] w1]; simpl in *; [done|].
  destruct e; try done. case_decide; [|done].
  etrans; [exact Hp|apply Hh].
Qed.

Lemma settle_all_preserves {B} (ts : list (M FS B)) :
  Forall (preserves R) ts → ∀ w, R w (settle_all ts w).2.
Proof.
  induction 1 as [|t ts Ht _ IH]; intros w; simpl; [reflexivity|].
  specialize (Ht w). destruct (t w) as [o w1]. simpl in Ht.
  specialize (IH w1). destruct (settle_all ts w1) as [os w2]. simpl in *.
  by etrans.
Qed.

Lemma start_all_tasks {A B} (f : A → Started FS B) (l : list A) t :
  t ∈ (start_all f l).1 → ∃ x, x ∈ l ∧ f x = InFlight t.
Proof.
  induction l as [|x l IH]; simpl.
  - intros H. by apply elem_of_nil in H.
  - destruct (f x) as [e|t'] eqn:E; simpl.
    + intros H. by apply elem_of_nil in H.
    + destruct (start_all f l) as [ts r]. simpl in *.
      rewrite elem_of_cons. intros [->|H].
      * exists x. split; [left|done].
      * destruct (IH H) as (y & Hy & Ey). exists y. split; [by right|done].
Qed.

Lemma Promise_map_preserves {A B} (l : list A) (f : A → Started FS B) :
  (∀ x t, x ∈ l → f x = InFlight t → preserves R t) →
  preserves R (Promise_map l f).
Proof.
  intros H w. unfold Promise_map.
  destruct (start_all f l) as [ts thrown] eqn:E.
  assert (Forall (preserves R) ts) as Hts.
  { apply Forall_forall. intros t Ht.
    destruct (start_all_tasks f l t) as (x & Hx & Ex); [by rewrite E|].
    by eapply H. }
  pose proof (settle_all_preserves ts Hts w) as Hs.
  destruct (settle_all ts w) as [os w']. simpl in Hs.
  by destruct thrown.
Qed.

Lemma Promise_each_preserves {A S} (l : list A) (f : A → S → M FS S) :
  (∀ x s, x ∈ l → preserves R (f x s)) → ∀ s, preserves R (Promise_each l f s).
Proof.
  induction l as [|x l IH]; intros H s; simpl.
  - apply ret_preserves.
  - apply bind_preserves; [apply H; left|].
    intros s'. apply IH. intros y s'' Hy. apply H. by right.
Qed.
End Preserved.




(** A map whose mappers all start a task, and whose tasks all resolve,
    resolves. *)
Lemma Promise_map_resolves {A B} (f : A → Started FS B) (l : list A) :
  (∀ x, x ∈ l → ∃ t, f x = InFlight t ∧ ∀ w, ∃ b, (t w).1 = Resolved b) →
  ∀ w, ∃ bs, (Promise_map l f w).1 = Resolved bs.
Proof.
  intros H w. unfold Promise_map.
  assert (∃ ts, start_all f l = (ts, None)
                ∧ Forall (fun t => ∀ w, ∃ b, (t w).1 = Resolved b) ts)
    as (ts & -> & Hts).
  { induction l as [|x l IH]; simpl; [by exists []|].
    destruct (H x) as (t & -> & Ht); [left|].
    destruct IH as (ts & -> & Hts); [intros y Hy; apply H; by right|].
    exists (t :: ts). split; [done|]. by constructor. }
  revert w. induction Hts as [|t ts Ht _ IH]; intros w; simpl; [by eexists|].
  destruct (Ht w) as [b Hb]. destruct (t w) as [o w1]. simpl in Hb. subst o.
  specialize (IH w1). destruct (settle_all ts w1) as [os w2]. simpl in *.
  destruct IH as [bs ->]. by eexists.
Qed.
End PromiseFacts.

(** ** [applyFileActions] *)

Lemma bind_resolved {FS A B} (p : M FS A) (f : A → M FS B) w b w' :
  bind p f w = (Resolved b, w') →
  ∃ a w1, p w = (Resolved a, w1) ∧ f a w1 = (Resolved b, w').
Proof.
  unfold bind. destruct (p w) as [[a|e] w1]; [|done]. intros H. by exists a, w1.
Qed.

Lemma bind_rejected {FS A B} (p : M FS A) (f : A → M FS B) w e w' :
  p w = (Rejected e, w') → bind p f w = (Rejected e, w').
Proof. unfold bind. by intros ->. Qed.

Lemma bind_step {FS A B} (p : M FS A) (f : A → M FS B) w a w1 :
  p w = (Resolved a, w1) → bind p f w = f a w1.
Proof. unfold bind. by intros ->. Qed.

Section ApplyFacts.
Context {FS : Type} {fsys : FileSystem FS} {node : NodeRuntime}.
Implicit Types w : World FS.

Lemma fs_removeAsync_only_files p : preserves only_files (fs_removeAsync p).
Proof.
  intros w. unfold fs_removeAsync. destruct (removeAsync p (w_fs w)). simpl.
  by repeat split.
Qed.

Lemma fs_moveAsync_only_files s d o : preserves only_files (fs_moveAsync s d o).
Proof.
  intros w. unfold fs_moveAsync. destruct (moveAsync s d o (w_fs w)). simpl.
  by repeat split.
Qed.

Lemma log_only_files l m : preserves only_files (log (FS := FS) l m).
Proof. intros w. by repeat split. Qed.

Lemma dropMapper_only_files outputPath x t :
  dropMapper outputPath x = InFlight t → preserves only_files t.
Proof.
  unfold dropMapper. destruct (truthy _); [|done].
  destruct (js_path_join _); [done|]. intros [= <-].
  apply fs_removeAsync_only_files.
Qed.

Lemma deleteMapper_only_files sourcePath x t :
  deleteMapper sourcePath x = InFlight t → preserves only_files t.
Proof.
  unfold deleteMapper. destruct (truthy _); [|done].
  destruct (js_path_join _); [done|]. intros [= <-].
  apply fs_removeAsync_only_files.
Qed.

Lemma importMapper_only_files sourcePath outputPath x t :
  importMapper sourcePath outputPath x = InFlight t → preserves only_files t.
Proof.
  unfold importMapper. destruct (js_path_join _); [done|].
  destruct (js_path_join _); [done|]. intros [= <-].
  apply catch_code_preserves; [apply _| |intros; apply log_only_files].
  apply bind_preserves.
  - apply _.
  - apply fs_removeAsync_only_files.
  - intros _. apply fs_moveAsync_only_files.
Qed.

Lemma fileSteps_only_files sourcePath outputPath acts :
  preserves only_files (fileSteps sourcePath outputPath acts).
Proof.
  unfold fileSteps.
  apply bind_preserves; [apply _| |intros _].
  { apply Promise_map_preserves; [apply _|].
    intros x t _. apply dropMapper_only_files. }
  apply bind_preserves; [apply _| |intros _].
  { apply Promise_map_preserves; [apply _|].
    intros x t _. apply deleteMapper_only_files. }
  apply bind_preserves; [apply _| |intros _; apply ret_preserves; apply _].
  apply Promise_map_preserves; [apply _|].
  intros x t _. apply importMapper_only_files.
Qed.

(** [applyFileActions] is its three file steps, then the rebuilt manifest
    and the events. *)
Lemma applyFileActions_steps api profileId sourcePath outputPath lastDeployment
      acts w :
  applyFileActions api profileId sourcePath outputPath lastDeployment (Some acts) w
  = match fileSteps sourcePath outputPath acts w with
    | (Resolved _, w1) =>
        (Resolved (rebuild (actionGroups acts) lastDeployment),
         add_events (map (mkEvent "mod-content-changed"
                                  (eventGameId (w_state w1) profileId))
                         (affectedMods acts)) w1)
    | (Rejected e, w1) => (Rejected e, w1)
    end.
Proof.
  unfold applyFileActions, fileSteps, bind.
  destruct (Promise_map (group _ "drop") _ w) as [[?|?] w1]; [|done].
  destruct (Promise_map (group _ "delete") _ w1) as [[?|?] w2]; [|done].
  destruct (Promise_map (group _ "import") _ w2) as [[?|?] w3]; done.
Qed.

(** Without decisions nothing happens. *)
Lemma applyFileActions_nil api profileId sourcePath outputPath lastDeployment w :
  applyFileActions api profileId sourcePath outputPath lastDeployment (Some []) w
  = (Resolved lastDeployment, w).
Proof.
  rewrite applyFileActions_steps. simpl.
  unfold fileSteps, bind, Promise_map, actionGroups, group. simpl.
  rewrite !lookup_empty. simpl. f_equal.
  - f_equal. unfold rebuild. apply filter_all.
    intros e _. unfold dropSet, group. rewrite !lookup_empty. simpl.
    apply not_elem_of_empty.
  - destruct w. unfold add_events. simpl. by rewrite app_nil_r.
Qed.

Lemma js_path_join_2 a b :
  js_path_join [Some a; Some b] = inr (path_join [a; b]).
Proof. reflexivity. Qed.

Lemma js_path_join_3 a b c :
  js_path_join [Some a; Some b; Some c] = inr (path_join [a; b; c]).
Proof. reflexivity. Qed.

Lemma truthy_Some p : truthy p = true → ∃ s, p = Some s ∧ s ≠ "".
Proof.
  destruct p as [s|]; simpl; [|done]. intros H. exists s. split; [done|].
  intros ->. done.
Qed.

Lemma fs_removeAsync_resolves p w :
  (removeAsync p (w_fs w)).2 = None → (fs_removeAsync p w).1 = Resolved tt.
Proof.
  unfold fs_removeAsync. destruct (removeAsync p (w_fs w)) as [fs' r].
  simpl. by intros ->.
Qed.

(** The import of one file resolves when the file system is reliable. *)
Lemma import_task_resolves source deployed w :
  reliable_fs FS →
  (catch_code "ENOENT"
     (await _ := fs_removeAsync source in fs_moveAsync deployed source true)
     (fun err => log "warn" "file disappeared") w).1 = Resolved tt.
Proof.
  intros [Hrm Hmv]. unfold catch_code, bind, fs_removeAsync.
  specialize (Hrm source (w_fs w)).
  destruct (removeAsync source (w_fs w)) as [fs1 r]. simpl in Hrm. subst r.
  simpl. unfold fs_moveAsync. simpl.
  specialize (Hmv deployed source fs1).
  destruct (moveAsync deployed source true fs1) as [fs2 [err|]]; simpl; [|done].
  rewrite decide_True; [done|]. by apply Hmv.
Qed.

(** On a reliable file system, well-formed decisions get through the file
    steps. *)
Lemma fileSteps_resolve sourcePath outputPath acts w :
  well_formed_decisions outputPath acts → reliable_fs FS →
  ∃ w1, fileSteps sourcePath outputPath acts w = (Resolved tt, w1).
Proof.
  intros [[out ->] Hwf] Hfs. unfold fileSteps.
  change "drop" with (action_name Adrop).
  change "delete" with (action_name Adelete).
  change "import" with (action_name Aimport).
  destruct (Promise_map_resolves (dropMapper (Some out))
              (group (actionGroups acts) (action_name Adrop))) with (w := w)
    as [bs Hdrop].
  { intros x [Hx Hact]%elem_of_group. specialize (Hwf x Hx). rewrite Hact in Hwf.
    destruct (truthy_Some _ Hwf) as (p & Hp & _).
    unfold dropMapper. rewrite Hwf, Hp, js_path_join_2.
    eexists. split; [done|]. intros w0. exists tt.
    apply fs_removeAsync_resolves, Hfs. }
  destruct (Promise_map _ _ w) as [o w1] eqn:E1. simpl in Hdrop. subst o.
  erewrite bind_step by exact E1.
  destruct (Promise_map_resolves (deleteMapper sourcePath)
              (group (actionGroups acts) (action_name Adelete))) with (w := w1)
    as [bs2 Hdel].
  { intros x [Hx Hact]%elem_of_group. specialize (Hwf x Hx). rewrite Hact in Hwf.
    destruct (truthy_Some _ Hwf) as (p & Hp & _).
    unfold deleteMapper. rewrite Hwf, Hp, js_path_join_3.
    eexists. split; [done|]. intros w0. exists tt.
    apply fs_removeAsync_resolves, Hfs. }
  destruct (Promise_map _ _ w1) as [o w2] eqn:E2. simpl in Hdel. subst o.
  erewrite bind_step by exact E2.
  destruct (Promise_map_resolves (importMapper sourcePath (Some out))
              (group (actionGroups acts) (action_name Aimport))) with (w := w2)
    as [bs3 Himp].
  { intros x [Hx Hact]%elem_of_group. specialize (Hwf x Hx). rewrite Hact in Hwf.
    destruct Hwf as [p Hp].
    unfold importMapper. rewrite Hp, js_path_join_3, js_path_join_2.
    eexists. split; [done|]. intros w0. exists tt.
    by apply import_task_resolves. }
  destruct (Promise_map _ _ w2) as [o w3] eqn:E3. simpl in Himp. subst o.
  erewrite bind_step by exact E3. by eexists.
Qed.

Lemma applyFileActions_resolves api profileId sourcePath outputPath
      lastDeployment acts w :
  well_formed_decisions outputPath acts → reliable_fs FS →
  ∃ w', applyFileActions api profileId sourcePath outputPath lastDeployment
          (Some acts) w
        = (Resolved (rebuild (actionGroups acts) lastDeployment), w').
Proof.
  intros Hwf Hfs. rewrite applyFileActions_steps.
  destruct (fileSteps_resolve sourcePath outputPath acts w Hwf Hfs) as [w1 ->].
  by eexists.
Qed.
End ApplyFacts.

(** ** The affected mods *)

Lemma elem_of_Set_add s x y : y ∈ Set_add s x ↔ y ∈ s ∨ y = x.
Proof.
  unfold Set_add. case_decide.
  - split; [by left|]. intros [?| ->]; done.
  - rewrite elem_of_app, list_elem_of_singleton. tauto.
Qed.

Lemma NoDup_Set_add s x : NoDup s → NoDup (Set_add s x).
Proof.
  intros Hs. unfold Set_add. case_decide; [done|].
  apply NoDup_app. repeat split; [done| |apply NoDup_singleton].
  intros y Hy ->%list_elem_of_singleton. done.
Qed.

Lemma affectedMods_fold acts : ∀ acc,
  NoDup acc →
  let r := fold_left
             (fun affected action =>
                if decide (IFileEntry.action action
                             ∈ [Aimport; Anewest; Anop; Adelete; Adrop])
                then Set_add affected (IFileEntry.source action)
                else affected) acts acc in
  NoDup r ∧ ∀ modId, modId ∈ r ↔ modId ∈ acc ∨ affected acts modId.
Proof.
  unfold affected.
  induction acts as [|d acts IH]; intros acc Hacc; simpl.
  - split; [done|]. intros modId. rewrite Exists_nil. tauto.
  - case_decide as Hd.
    + destruct (IH (Set_add acc (IFileEntry.source d))) as [Hnd Hiff];
        [by apply NoDup_Set_add|].
      split; [done|]. intros modId. rewrite Hiff, elem_of_Set_add, Exists_cons.
      split; [|intros [?|[[<- _]|?]]; tauto].
      intros [[?| ->]|?]; tauto.
    + destruct (IH acc Hacc) as [Hnd Hiff].
      split; [done|]. intros modId. rewrite Hiff, Exists_cons.
      split; [tauto|]. intros [?|[[_ ?]|?]]; tauto.
Qed.

(** One entry for each affected mod, and no other. *)
Lemma affectedMods_spec acts :
  NoDup (affectedMods acts) ∧ ∀ modId, modId ∈ affectedMods acts ↔ affected acts modId.
Proof.
  destruct (affectedMods_fold acts [] (NoDup_nil_2)) as [Hnd Hiff].
  split; [done|]. intros modId. unfold affectedMods. rewrite Hiff.
  split; [intros [H|H]; [by apply elem_of_nil in H|done]|by right].
Qed.

Lemma events_modIds name gameId mods :
  ev_modId <$> map (mkEvent name gameId) mods = mods.
Proof. induction mods as [|x mods IH]; [done|]. simpl. f_equal. exact IH. Qed.

(** ** The claims about [applyFileActions] *)

Section ApplyClaims.
Context {FS : Type} {fsys : FileSystem FS} {node : NodeRuntime}.
Implicit Types w : World FS.

(** C1.  Whenever [applyFileActions] returns a manifest, it is the prior
    manifest without the rows whose [relPath] is the [filePath] of a
    decision that is a restore, drop, delete or import (a newest decision
    counting as the drop or import it resolves to), in the prior order; a
    row whose decisions are all nop is kept.  On a reliable file system,
    well-formed decisions do return that manifest. *)
Theorem applyFileActions_manifest api profileId sourcePath outputPath
        lastDeployment (fileActions : list IFileEntry.t) w :
  let kept :=
    filter (fun e => ¬ invalidates fileActions (IDeployedFile.relPath e))
           lastDeployment in
  (∀ m w',
      applyFileActions api profileId sourcePath outputPath lastDeployment
                       (Some fileActions) w = (Resolved m, w') →
      m = kept)
  ∧ (∀ e, e ∈ lastDeployment →
          (∀ d, d ∈ fileActions →
                IFileEntry.filePath d = Some (IDeployedFile.relPath e) →
                IFileEntry.action d = Anop) →
          e ∈ kept)
  ∧ (well_formed_decisions outputPath fileActions → reliable_fs FS →
     ∃ w', applyFileActions api profileId sourcePath outputPath lastDeployment
                            (Some fileActions) w = (Resolved kept, w')).
Proof.
  intros kept. subst kept. rewrite <- rebuild_spec. repeat split.
  - intros m w'. rewrite applyFileActions_steps.
    destruct (fileSteps _ _ _ w) as [[[]|e] w1]; [|done]. by intros [= <- _].
  - intros e He Hnop. rewrite rebuild_spec. apply list_elem_of_filter.
    split; [|done]. unfold invalidates. rewrite Exists_exists.
    intros (d & Hd & Hp & Ha). specialize (Hnop d Hd Hp).
    unfold effectiveAction in Ha. rewrite Hnop in Ha.
    not_listed Ha.
  - intros Hwf Hfs. by apply applyFileActions_resolves.
Qed.


(** C6.  A pass that resolves emits exactly one [mod-content-changed]
    event for each mod that is the source of a decision whose action is
    import, newest, nop, delete or drop, however many of its files are
    concerned, and none for a mod that occurs in restore decisions only.
    A pass that is rejected emits none. *)
Theorem mod_content_changed_once api profileId sourcePath outputPath
        lastDeployment (fileActions : option (list IFileEntry.t)) w :
  let decisions := default [] fileActions in
  let r := applyFileActions api profileId sourcePath outputPath lastDeployment
                            fileActions w in
  ∃ evs,
    w_events r.2 = w_events w ++ evs
    ∧ NoDup (ev_modId <$> evs)
    ∧ Forall (fun ev => ev_name ev = "mod-content-changed") evs
    ∧ match r.1 with
      | Resolved _ =>
          ∀ modId, modId ∈ ev_modId <$> evs ↔ affected decisions modId
      | Rejected _ => evs = []
      end
    ∧ ∀ modId,
        (∀ d, d ∈ decisions → IFileEntry.source d = modId →
              IFileEntry.action d = Arestore) →
        modId ∉ ev_modId <$> evs.
Proof.
  intros decisions r. subst decisions r.
  destruct fileActions as [acts|].
  2:{ simpl. exists []. rewrite app_nil_r. repeat split; try done; try constructor.
      - intros H. by apply elem_of_nil in H.
      - unfold affected. by rewrite Exists_nil.
      - intros modId _ H. by apply elem_of_nil in H. }
  rewrite applyFileActions_steps.
  pose proof (fileSteps_only_files sourcePath outputPath acts w) as Hframe.
  destruct (fileSteps _ _ _ w) as [[[]|e] w1]; simpl in *;
    destruct Hframe as (Hev & _).
  - destruct (affectedMods_spec acts) as [Hnd Hiff].
    eexists. split; [by rewrite Hev|]. rewrite events_modIds.
    repeat split; try done.
    + apply Forall_forall. by intros ev (y & -> & _)%list_elem_of_fmap.
    + by apply Hiff.
    + by apply Hiff.
    + intros modId Hres [d [Hd [Hs Ha]]]%Hiff%Exists_exists.
      rewrite (Hres d Hd Hs) in Ha.
      not_listed Ha.
  - exists []. rewrite app_nil_r. repeat split; try done; try constructor.
    intros modId _ H. by apply elem_of_nil in H.
Qed.
End ApplyClaims.

(** ** The import of a file, and a path that is not valid *)

Section FileStepClaims.
Context {FS : Type} {fsys : FileSystem FS} {node : NodeRuntime}.
Implicit Types w : World FS.

End FileStepClaims.

Section InvalidPath.
Context {FS : Type} {fsys : FileSystem FS} {node : NodeRuntime}.
Implicit Types w : World FS.










End InvalidPath.

(** ** The pass: [checkForExternalChanges] and [dealWithExternalChanges] *)

Section PassFacts.
Context {FS : Type} {fsys : FileSystem FS} {node : NodeRuntime}.
Implicit Types w : World FS.

Lemma log_same_store l m : preserves same_store (log (FS := FS) l m).
Proof. intros w. by split. Qed.

Lemma get_prop_same_world obj key w : (get_prop obj key w).2 = w.
Proof. unfold get_prop. by destruct (w_heap w !! obj). Qed.

Lemma activator_same_store activator g s p m :
  preserves same_store (activator_externalChanges (FS := FS) activator g s p m).
Proof.
  intros w. unfold activator_externalChanges.
  by destruct (externalChanges _ _ _ _ _ _).
Qed.

Section CheckType.
Context (R : relation (World FS)) `{!PreOrder R}.
Context (Hlog : ∀ l m, preserves R (log (FS := FS) l m)).
Context (Hact : ∀ activator g s p m,
            preserves R (activator_externalChanges (FS := FS) activator g s p m)).

Lemma checkType_preserves activator profile stagingPath modPaths lastDeployment
      typeId changes :
  preserves R (checkType activator profile stagingPath modPaths lastDeployment
                         typeId changes).
Proof.
  intros w. unfold checkType, bind.
  pose proof (get_prop_same_world lastDeployment typeId w) as Hw.
  destruct (get_prop lastDeployment typeId w) as [[[manifest|]|e] w0];
    simpl in Hw; subst w0; simpl; try reflexivity.
  pose proof (Hact activator (IProfile.gameId profile) stagingPath
                   (modPaths !! typeId) manifest
                   (add_log ("debug", "checking external changes") w)) as Ha.
  destruct (activator_externalChanges _ _ _ _ _ _) as [[cs|e] w2]; simpl in *.
  - etrans; [apply (Hlog "debug" "checking external changes" w)|].
    by destruct (0 <? length cs)%nat.
  - etrans; [apply (Hlog "debug" "checking external changes" w)|done].
Qed.

Lemma checkForExternalChanges_preserves api activator profileId stagingPath
      modPaths lastDeployment :
  preserves R (checkForExternalChanges api activator profileId stagingPath
                                       modPaths lastDeployment).
Proof.
  unfold checkForExternalChanges.
  apply bind_preserves; [apply _|apply Hlog|intros _].
  intros w. unfold bind, getState. simpl.
  destruct (passProfile (w_state w) profileId) as [profile|]; [|reflexivity].
  apply Promise_each_preserves; [apply _|].
  intros x s _. apply checkType_preserves.
Qed.
End CheckType.

(** A rejection of [Promise_each] is a rejection of its callback. *)
Lemma Promise_each_rejection {A S} (l : list A) (f : A → S → M FS S)
      (P : Error → Prop) :
  (∀ y s w e, y ∈ l → (f y s w).1 = Rejected e → P e) →
  ∀ s w e, (Promise_each l f s w).1 = Rejected e → P e.
Proof.
  induction l as [|x l IH]; intros Hf s w e; simpl; [done|].
  unfold bind. destruct (f x s w) as [[s'|e'] w1] eqn:E.
  - apply IH. intros y s0 w0 e0 Hy. apply Hf. by right.
  - simpl. intros [= <-]. apply (Hf x s w); [left|by rewrite E].
Qed.

(** [Promise_each] rejects when its callback rejects on an element
    wherever an invariant of the callback holds. *)
Lemma Promise_each_rejects {A S} (l : list A) (f : A → S → M FS S)
      (I : World FS → Prop) x :
  x ∈ l →
  (∀ y s w, I w → I (f y s w).2) →
  (∀ s w, I w → ∃ e, (f x s w).1 = Rejected e) →
  ∀ s w, I w → ∃ e, (Promise_each l f s w).1 = Rejected e.
Proof.
  induction l as [|y l IH]; intros Hx Hinv Hrej s w Hw.
  - by apply elem_of_nil in Hx.
  - simpl. unfold bind. pose proof (Hinv y s w Hw) as Hw1.
    destruct (f y s w) as [[s'|e'] w1] eqn:E; simpl in *; [|by eexists].
    apply elem_of_cons in Hx as [->|Hx].
    + destruct (Hrej s w Hw) as [e He]. rewrite E in He. done.
    + by apply IH.
Qed.

Lemma elem_of_Object_keys {V} (m : gmap string V) k :
  k ∈ Object_keys m ↔ is_Some (m !! k).
Proof.
  rewrite (Object_keys_perm V m), list_elem_of_fmap. split.
  - intros ([k' v] & -> & Hkv%elem_of_map_to_list). by exists v.
  - intros [v Hv]. exists (k, v). split; [done|]. by apply elem_of_map_to_list.
Qed.

Lemma NoDup_Object_keys {V} (m : gmap string V) : NoDup (Object_keys m).
Proof. rewrite (Object_keys_perm V m). apply NoDup_fst_map_to_list. Qed.

(** What one resolved [reconcileType] did. *)
Lemma reconcileType_resolved api profileId stagingPath modPaths lastDeployment
      answer typeId w obj m' w' :
  w_heap w !! lastDeployment = Some obj →
  reconcileType api profileId stagingPath modPaths lastDeployment answer typeId w
  = (Resolved m', w') →
  ∃ manifest fileActions,
    obj !! typeId = Some manifest ∧ answer = Some fileActions
    ∧ m' = filter
             (fun e => ¬ invalidates
                           (filter (fun a => IFileEntry.modTypeId a = typeId)
                                   fileActions)
                           (IDeployedFile.relPath e))
             manifest
    ∧ w_heap w' = <[lastDeployment := <[typeId := m']> obj]> (w_heap w).
Proof.
  intros Hobj. unfold reconcileType, bind, get_prop. rewrite Hobj.
  destruct (obj !! typeId) as [manifest|]; [|done].
  destruct answer as [fileActions|]; [|done].
  rewrite applyFileActions_steps.
  pose proof (fileSteps_only_files stagingPath (modPaths !! typeId)
                (filter (fun a => IFileEntry.modTypeId a = typeId) fileActions) w)
    as (_ & _ & _ & _ & Hheap).
  destruct (fileSteps _ _ _ w) as [[[]|e] w1]; [|done]. simpl in Hheap.
  unfold set_prop. simpl. rewrite Hheap, Hobj. simpl.
  intros [= <- <-]. exists manifest, fileActions.
  rewrite rebuild_spec. by repeat split.
Qed.

Lemma mapSeries_reconcile api profileId stagingPath modPaths lastDeployment
      answer keys :
  NoDup keys →
  ∀ obj w ms w',
    w_heap w !! lastDeployment = Some obj →
    Promise_mapSeries keys
      (reconcileType api profileId stagingPath modPaths lastDeployment answer) w
    = (Resolved ms, w') →
    ∃ obj',
      w_heap w' !! lastDeployment = Some obj'
      ∧ (∀ k, k ∈ keys →
              ∃ manifest fileActions,
                obj !! k = Some manifest ∧ answer = Some fileActions
                ∧ obj' !! k
                  = Some (filter
                            (fun e => ¬ invalidates
                                          (filter (fun a => IFileEntry.modTypeId a = k)
                                                  fileActions)
                                          (IDeployedFile.relPath e))
                            manifest))
      ∧ (∀ k, k ∉ keys → obj' !! k = obj !! k)
      ∧ Some <$> ms = (fun k => obj' !! k) <$> keys.
Proof.
  induction 1 as [|k keys Hk Hnd IH]; intros obj w ms w' Hobj; simpl.
  - intros [= <- <-]. exists obj. repeat split; try done.
    intros k Hk. by apply elem_of_nil in Hk.
  - intros (m' & w1 & Hstep & Hrest)%bind_resolved.
    apply bind_resolved in Hrest as (ms' & w2 & Hrest & Hret).
    injection Hret as <- <-.
    destruct (reconcileType_resolved _ _ _ _ _ _ _ _ _ _ _ Hobj Hstep)
      as (manifest & fileActions & Hm & Hans & Hm' & Hheap).
    assert (w_heap w1 !! lastDeployment = Some (<[k := m']> obj)) as Hobj1
        by (rewrite Hheap; apply lookup_insert_eq).
    destruct (IH _ _ _ _ Hobj1 Hrest) as (obj' & Hobj' & Hin & Hout & Hms).
    exists obj'. split; [done|]. split; [|split].
    + intros k' [->|Hk']%elem_of_cons.
      * exists manifest, fileActions. rewrite (Hout k Hk), lookup_insert_eq.
        by rewrite Hm'.
      * destruct (Hin k' Hk') as (mf & fa & Hmf & Hfa & Hres).
        exists mf, fa. rewrite lookup_insert_ne in Hmf by (intros ->; done).
        done.
    + intros k' Hk'. rewrite not_elem_of_cons in Hk'. destruct Hk' as [Hne Hk'].
      rewrite (Hout k' Hk'). by rewrite lookup_insert_ne.
    + rewrite !fmap_cons, Hms, (Hout k Hk), lookup_insert_eq. done.
Qed.

Lemma log_only_reads l m : preserves only_reads (log (FS := FS) l m).
Proof. intros w. by repeat split. Qed.

Lemma activator_only_reads activator g s p m :
  preserves only_reads (activator_externalChanges (FS := FS) activator g s p m).
Proof.
  intros w. unfold activator_externalChanges.
  by destruct (externalChanges _ _ _ _ _ _).
Qed.

(** Without a discrepancy the detection finds no change. *)
Lemma check_types_no_discrepancy activator profile stagingPath modPaths
      lastDeployment obj keys :
  (∀ k, k ∈ keys → is_Some (obj !! k)) →
  ∀ w, w_heap w !! lastDeployment = Some obj →
       no_discrepancy activator (IProfile.gameId profile) stagingPath modPaths
                      obj w →
       ∃ w1, Promise_each keys
               (checkType activator profile stagingPath modPaths lastDeployment)
               ∅ w = (Resolved ∅, w1).
Proof.
  induction keys as [|k keys IH]; intros Hkeys w Hobj Hnone; simpl.
  - by eexists.
  - destruct (Hkeys k) as [manifest Hm]; [left|].
    pose proof (checkType_preserves only_reads log_only_reads
                  activator_only_reads activator profile stagingPath modPaths
                  lastDeployment k ∅ w) as (Hfs & _ & _ & _ & _ & Hheap).
    assert ((checkType activator profile stagingPath modPaths lastDeployment k
                       ∅ w).1 = Resolved ∅) as Hres.
    { unfold checkType, bind, get_prop, activator_externalChanges, log.
      rewrite Hobj, Hm. simpl.
      by rewrite (Hnone k manifest Hm). }
    destruct (checkType _ _ _ _ _ k ∅ w) as [o w1] eqn:E. simpl in *. subst o.
    erewrite bind_step by exact E. apply IH.
    + intros k' Hk'. apply Hkeys. by right.
    + by rewrite Hheap.
    + intros t mf Ht. rewrite Hfs. by apply Hnone.
Qed.

Lemma set_prop_same obj key value w o :
  w_heap w !! obj = Some o → o !! key = Some value →
  set_prop obj key value w = (Resolved tt, w).
Proof.
  intros Ho Hv. unfold set_prop. rewrite Ho. f_equal.
  unfold set_heap. rewrite (insert_id o key value Hv).
  rewrite (insert_id (w_heap w) obj o Ho). by destruct w.
Qed.

(** Without decisions the manifests stay as they are. *)
Lemma mapSeries_no_decisions api profileId stagingPath modPaths lastDeployment
      obj keys w :
  (∀ k, k ∈ keys → is_Some (obj !! k)) →
  w_heap w !! lastDeployment = Some obj →
  ∃ ms, Promise_mapSeries keys
          (reconcileType api profileId stagingPath modPaths lastDeployment
                         (Some [])) w
        = (Resolved ms, w)
        ∧ Some <$> ms = (fun k => obj !! k) <$> keys.
Proof.
  intros Hkeys Hobj. induction keys as [|k keys IH]; simpl.
  - by exists [].
  - destruct (Hkeys k) as [manifest Hm]; [left|].
    destruct IH as (ms & Hms & Hvals); [intros k' Hk'; apply Hkeys; by right|].
    exists (manifest :: ms). split.
    + assert (reconcileType api profileId stagingPath modPaths lastDeployment
                            (Some []) k w = (Resolved manifest, w)) as Hstep.
      { unfold reconcileType.
        erewrite bind_step by (unfold get_prop; rewrite Hobj; reflexivity).
        cbv beta. rewrite Hm, filter_nil.
        erewrite bind_step by apply applyFileActions_nil.
        erewrite bind_step by (by eapply set_prop_same). done. }
      erewrite bind_step by exact Hstep.
      erewrite bind_step by exact Hms. done.
    + by rewrite !fmap_cons, Hvals, Hm.
Qed.

(** A pass that finds no discrepancy changes nothing. *)
Lemma dealWithExternalChanges_no_discrepancy api activator profileId
      stagingPath modPaths lastDeployment obj profile w :
  passProfile (w_state w) profileId = Some profile →
  w_heap w !! lastDeployment = Some obj →
  (∀ k, is_Some (modPaths !! k) → is_Some (obj !! k)) →
  no_discrepancy activator (IProfile.gameId profile) stagingPath modPaths obj w →
  ∃ ms w',
    dealWithExternalChanges api activator profileId stagingPath modPaths
                            lastDeployment w = (Resolved ms, w')
    ∧ only_reads w w'
    ∧ Some <$> ms = (fun k => obj !! k) <$> Object_keys obj.
Proof.
  intros Hprofile Hobj Hdom Hnone.
  pose proof (checkForExternalChanges_preserves only_reads log_only_reads
                activator_only_reads api activator profileId stagingPath
                modPaths lastDeployment w) as Hreads.
  assert (∃ w1, checkForExternalChanges api activator profileId stagingPath
                  modPaths lastDeployment w = (Resolved ∅, w1)) as [w1 Hcheck].
  { unfold checkForExternalChanges, bind, log, getState. simpl.
    rewrite Hprofile. apply (check_types_no_discrepancy _ _ _ _ _ obj).
    - intros k Hk. apply Hdom. by apply elem_of_Object_keys.
    - done.
    - done. }
  rewrite Hcheck in Hreads. simpl in Hreads.
  assert (w_heap w1 !! lastDeployment = Some obj) as Hobj1.
  { destruct Hreads as (_ & _ & _ & _ & _ & ->). done. }
  destruct (mapSeries_no_decisions api profileId stagingPath modPaths
              lastDeployment obj (Object_keys obj) w1) as (ms & Hms & Hvals);
    [intros k Hk; by apply elem_of_Object_keys|done|].
  exists ms, w1. split; [|by split].
  unfold dealWithExternalChanges.
  erewrite bind_step by exact Hcheck.
  assert (Object_keys (∅ : gmap string (list IFileChange.t)) = []) as ->.
  { apply Permutation_nil_r. rewrite Object_keys_perm.
    by rewrite map_to_list_empty. }
  simpl. unfold bind at 1. unfold ret at 1.
  unfold bind at 1. unfold deref. rewrite Hobj1. exact Hms.
Qed.
End PassFacts.

Section PassClaims.
Context {FS : Type} {fsys : FileSystem FS} {node : NodeRuntime}.
Implicit Types w : World FS.

(** C3.  When the profile of the pass does not exist,
    [checkForExternalChanges] rejects with [ProcessCanceled], and so does
    [dealWithExternalChanges], before anything is done: the activator is
    not queried, no file operation is performed, no dialog is shown, no
    event is emitted, and the manifest object is as the caller passed
    it. *)
Theorem missing_profile_cancels api activator profileId stagingPath modPaths
        lastDeployment w :
  passProfile (w_state w) profileId = None →
  let r := checkForExternalChanges api activator profileId stagingPath modPaths
                                   lastDeployment w in
  let r' := dealWithExternalChanges api activator profileId stagingPath modPaths
                                    lastDeployment w in
  r.1 = Rejected (ProcessCanceled "Profile no longer exists.")
  ∧ r'.1 = Rejected (ProcessCanceled "Profile no longer exists.")
  ∧ r'.2 = r.2
  ∧ w_queries r.2 = w_queries w
  ∧ w_ops r.2 = w_ops w
  ∧ w_fs r.2 = w_fs w
  ∧ w_heap r.2 = w_heap w
  ∧ w_events r.2 = w_events w
  ∧ w_dialogs r.2 = w_dialogs w.
Proof.
  intros Hnone r r'. subst r r'.
  assert (checkForExternalChanges api activator profileId stagingPath modPaths
                                  lastDeployment w
          = (Rejected (ProcessCanceled "Profile no longer exists."),
             add_log ("debug", "determine external changes") w)) as Hcheck.
  { unfold checkForExternalChanges, bind, log, getState. simpl.
    by rewrite Hnone. }
  unfold dealWithExternalChanges.
  erewrite bind_rejected by exact Hcheck. rewrite Hcheck. by repeat split.
Qed.

(** C8.  Called with an undefined or an empty decision list,
    [applyFileActions] returns the manifest it was given and leaves the
    world as it was: no file operation, no event.  Hence a further pass
    with no decisions over the manifest a pass returned returns that
    manifest again, and a run of [dealWithExternalChanges] that finds no
    discrepancy resolves to the manifests the object holds and leaves the
    object, the files and the events as they were. *)
Theorem applyFileActions_no_decisions api profileId sourcePath outputPath
        lastDeployment w :
  applyFileActions api profileId sourcePath outputPath lastDeployment None w
  = (Resolved lastDeployment, w)
  ∧ applyFileActions api profileId sourcePath outputPath lastDeployment
                     (Some []) w
    = (Resolved lastDeployment, w)
  ∧ (∀ fileActions m w',
        applyFileActions api profileId sourcePath outputPath lastDeployment
                         fileActions w = (Resolved m, w') →
        applyFileActions api profileId sourcePath outputPath m (Some []) w'
        = (Resolved m, w')
        ∧ applyFileActions api profileId sourcePath outputPath m None w'
          = (Resolved m, w'))
  ∧ (∀ activator modPaths ref obj profile,
        passProfile (w_state w) profileId = Some profile →
        w_heap w !! ref = Some obj →
        (∀ k, is_Some (modPaths !! k) → is_Some (obj !! k)) →
        no_discrepancy activator (IProfile.gameId profile) sourcePath modPaths
                       obj w →
        ∃ ms w',
          dealWithExternalChanges api activator profileId sourcePath modPaths
                                  ref w = (Resolved ms, w')
          ∧ only_reads w w'
          ∧ Some <$> ms = (fun k => obj !! k) <$> Object_keys obj).
Proof.
  split; [done|]. split; [apply applyFileActions_nil|]. split.
  - intros fileActions m w' _. split; [apply applyFileActions_nil|done].
  - intros activator modPaths ref obj profile.
    apply dealWithExternalChanges_no_discrepancy.
Qed.

(** C10.  When a mod type has a target directory in [modPaths] and no
    manifest in [lastDeployment], the detection pass is rejected, and so
    is the pass as a whole; no manifest is assumed empty.  The error is
    the [TypeError] of reading a property of undefined, unless the
    deployment method has rejected a query for a mod type visited
    before. *)
Theorem missing_manifest_rejects api activator profileId stagingPath modPaths
        lastDeployment obj typeId profile w :
  passProfile (w_state w) profileId = Some profile →
  w_heap w !! lastDeployment = Some obj →
  is_Some (modPaths !! typeId) →
  obj !! typeId = None →
  let r := checkForExternalChanges api activator profileId stagingPath modPaths
                                   lastDeployment w in
  let r' := dealWithExternalChanges api activator profileId stagingPath modPaths
                                    lastDeployment w in
  ∃ e,
    r.1 = Rejected e
    ∧ r'.1 = Rejected e
    ∧ (e = TypeError
       ∨ ∃ g s p m fs, externalChanges activator g s p m fs = inl e)
    ∧ w_heap r'.2 = w_heap w.
Proof.
  intros Hprofile Hobj Hpath Hmissing r r'. subst r r'.
  set (I := fun w0 : World FS => w_heap w0 = w_heap w).
  set (w0 := add_log ("debug", "determine external changes") w).
  assert (checkForExternalChanges api activator profileId stagingPath modPaths
                                  lastDeployment w
          = Promise_each (Object_keys modPaths)
              (checkType activator profile stagingPath modPaths lastDeployment)
              ∅ w0) as Hcheck.
  { unfold checkForExternalChanges, bind, log, getState. simpl.
    by rewrite Hprofile. }
  destruct (Promise_each_rejects (Object_keys modPaths)
              (checkType activator profile stagingPath modPaths lastDeployment)
              I typeId) with (s := (∅ : gmap string (list IFileChange.t)))
                             (w := w0)
    as [e He].
  - by apply elem_of_Object_keys.
  - intros y s w1 Hw1. unfold I in *. rewrite <- Hw1.
    apply (checkType_preserves same_store log_same_store activator_same_store).
  - intros s w1 Hw1. exists TypeError. unfold checkType, bind, get_prop.
    unfold I in Hw1. by rewrite Hw1, Hobj, Hmissing.
  - done.
  - exists e.
    assert (e = TypeError
            ∨ ∃ g s p m fs, externalChanges activator g s p m fs = inl e)
      as Hsource.
    { revert He.
      apply (Promise_each_rejection (Object_keys modPaths)
               (checkType activator profile stagingPath modPaths lastDeployment)
               (fun e => e = TypeError
                         ∨ ∃ g s p m fs,
                             externalChanges activator g s p m fs = inl e)).
      intros y s w2 e0 _. unfold checkType, bind, get_prop.
      destruct (w_heap w2 !! lastDeployment) as [o|]; simpl;
        [|intros [= <-]; by left].
      destruct (o !! y) as [m|]; simpl; [|intros [= <-]; by left].
      unfold activator_externalChanges.
      destruct (externalChanges activator (IProfile.gameId profile) stagingPath
                                (modPaths !! y) m _) as [e1|cs] eqn:Eq; simpl.
      - intros [= <-]. right. by repeat eexists.
      - by destruct (0 <? length cs)%nat. }
    destruct (Promise_each _ _ _ w0) as [o w1] eqn:E in Hcheck, He.
    simpl in He. subst o.
    pose proof (checkForExternalChanges_preserves same_store log_same_store
                  activator_same_store api activator profileId stagingPath
                  modPaths lastDeployment w) as [_ Hheap].
    rewrite Hcheck in Hheap. simpl in Hheap.
    unfold dealWithExternalChanges.
    erewrite bind_rejected by exact Hcheck. rewrite Hcheck. simpl.
    by repeat split.
Qed.

(** C9.  When [dealWithExternalChanges] resolves, the manifest object the
    caller passed has been updated in place: it has the mod types it had,
    and under each of them the manifest [applyFileActions] returns for the
    prior manifest of that type and the decisions whose [modTypeId] is
    that type, which is the prior manifest without the rows those
    decisions invalidate.  The decisions are the answer of the dialog,
    or none when no discrepancy was found.  The promise resolves to these
    manifests, in the order of the keys. *)
Theorem dealWithExternalChanges_updates_in_place api activator profileId
        stagingPath modPaths lastDeployment obj w ms w' :
  w_heap w !! lastDeployment = Some obj →
  dealWithExternalChanges api activator profileId stagingPath modPaths
                          lastDeployment w = (Resolved ms, w') →
  ∃ answer obj',
    w_heap w' !! lastDeployment = Some obj'
    ∧ dom obj' = dom obj
    ∧ (∀ typeId manifest,
          obj !! typeId = Some manifest →
          ∃ fileActions,
            answer = Some fileActions
            ∧ obj' !! typeId
              = Some (filter
                        (fun e => ¬ invalidates
                                      (filter (fun a => IFileEntry.modTypeId a = typeId)
                                              fileActions)
                                      (IDeployedFile.relPath e))
                        manifest))
    ∧ (answer = Some []
       ∨ ∃ changes, changes ∈ w_dialogs w'
                    ∧ dispatch_showExternalChanges api changes = inr answer)
    ∧ Some <$> ms = (fun typeId => obj' !! typeId) <$> Object_keys obj.
Proof.
  intros Hobj. unfold dealWithExternalChanges.
  intros (changes & w1 & Hcheck & Hrest)%bind_resolved.
  apply bind_resolved in Hrest as (answer & w2 & Hanswer & Hrest).
  apply bind_resolved in Hrest as (obj0 & w3 & Hderef & Hseries).
  pose proof (checkForExternalChanges_preserves same_store log_same_store
                activator_same_store api activator profileId stagingPath
                modPaths lastDeployment w) as [_ Hheap1].
  rewrite Hcheck in Hheap1. simpl in Hheap1.
  assert (w_heap w2 = w_heap w1
          ∧ (answer = Some []
             ∨ (w_dialogs w2 = w_dialogs w1 ++ [changes]
                ∧ dispatch_showExternalChanges api changes = inr answer)))
    as [Hheap2 Hprov].
  { destruct (0 <? length (Object_keys changes))%nat.
    - unfold bind, log, store_dispatch in Hanswer. simpl in Hanswer.
      destruct (dispatch_showExternalChanges api changes) as [e|a]; [done|].
      injection Hanswer as <- <-. split; [done|]. by right.
    - injection Hanswer as <- <-. split; [done|]. by left. }
  unfold deref in Hderef. rewrite Hheap2, Hheap1, Hobj in Hderef.
  injection Hderef as <- <-.
  assert (w_heap w2 !! lastDeployment = Some obj) as Hobj2
      by by rewrite Hheap2, Hheap1.
  destruct (mapSeries_reconcile _ _ _ _ _ _ _ (NoDup_Object_keys obj)
              _ _ _ _ Hobj2 Hseries) as (obj' & Hobj' & Hin & Hout & Hms).
  exists answer, obj'. split; [done|]. split; [|split; [|split]].
  - apply set_eq. intros k. rewrite !elem_of_dom.
    destruct (decide (k ∈ Object_keys obj)) as [Hk|Hk].
    + destruct (Hin k Hk) as (mf & fa & -> & _ & ->). split; by eexists.
    + by rewrite (Hout k Hk).
  - intros typeId manifest Hm.
    destruct (Hin typeId) as (mf & fa & Hmf & Hfa & Hres);
      [apply elem_of_Object_keys; by eexists|].
    exists fa. split; [done|]. congruence.
  - destruct Hprov as [?|[Hd Ha]]; [by left|right].
    exists changes. split; [|done].
    assert (w_dialogs w' = w_dialogs w2) as ->; [|rewrite Hd; set_solver].
    clear -Hseries.
    revert w2 ms w' Hseries.
    induction (Object_keys obj) as [|k keys IH]; intros w2 ms w'; simpl.
    { by intros [= _ <-]. }
    intros (m' & w3 & Hstep & Hrest)%bind_resolved.
    apply bind_resolved in Hrest as (ms' & w4 & Hrest & Hret).
    injection Hret as <- <-. rewrite (IH _ _ _ Hrest).
    clear -Hstep. unfold reconcileType, bind, get_prop, set_prop in Hstep.
    destruct (w_heap w2 !! lastDeployment) as [o|] eqn:Ho; [|done].
    destruct (o !! k) as [mf|]; [|done].
    destruct answer as [fa|]; [|done].
    rewrite applyFileActions_steps in Hstep.
    pose proof (fileSteps_only_files stagingPath (modPaths !! k)
                  (filter (fun a => IFileEntry.modTypeId a = k) fa) w2)
      as (_ & _ & Hdlg & _ & Hh).
    destruct (fileSteps _ _ _ w2) as [[[]|e] w5]; [|done].
    simpl in *. rewrite Hh, Ho in Hstep. by injection Hstep as _ <-.
  - done.
Qed.
End PassClaims.

(** ** The game id of the event *)

(** For an existing profile the event carries the id of the profile. *)
Lemma eventGameId_existing_profile state profileId profile :
  profileById state profileId = Some profile →
  eventGameId state (Some profileId) = Some (IProfile.id profile).
Proof. unfold eventGameId. by intros ->. Qed.

(** * The claims on the sample platform *)

Section OnSample.
Import Sample.

Lemma files_reliable : reliable_fs Files.
Proof.
  split; [done|]. intros src dst fs e. simpl.
  destruct (fs !! src); [|by intros [= <-]].
  by destruct (fs !! dst).
Qed.

(** C7.  The pass runs for the profile [profile1], whose game is
    [skyrim]; the event for the imported file of [ModB] carries
    [profile1], the id of the profile, where the game id belongs. *)
Lemma event_carries_profile_id :
  let r := applyFileActions (api None) (Some "profile1") "staging" (Some "game")
                            manifest
                            (Some [decision "b.txt" "ModB" Aimport 0 0]) world in
  profileById (w_state world) "profile1" = Some profile1
  ∧ IProfile.gameId profile1 = "skyrim"
  ∧ r.1 = Resolved [a_txt; c_txt]
  ∧ w_events r.2 = [mkEvent "mod-content-changed" (Some "profile1") "ModB"].
Proof. vm_compute. by repeat split. Qed.


Lemma decisions_well_formed : well_formed_decisions (Some "game") decisions.
Proof.
  split; [by eexists|]. intros d Hd. unfold decisions in Hd.
  repeat (apply elem_of_cons in Hd as [->|Hd]); try done.
  - simpl. by eexists.
  - by apply elem_of_nil in Hd.
Qed.

(** C1 on the sample: the restore of [a.txt] and the import of [b.txt]
    leave the row of [c.txt]. *)
Lemma applyFileActions_manifest_witness :
  let run := applyFileActions (api None) (Some "profile1") "staging"
                              (Some "game") manifest (Some decisions) world in
  well_formed_decisions (Some "game") decisions
  ∧ reliable_fs Files
  ∧ run = (Resolved [c_txt], run.2)
  ∧ [c_txt]
    = filter (fun e => ¬ invalidates decisions (IDeployedFile.relPath e)) manifest
  ∧ c_txt
    ∈ filter (fun e => ¬ invalidates decisions (IDeployedFile.relPath e)) manifest
  ∧ ∃ w', run = (Resolved [c_txt], w').
Proof.
  intros run.
  pose proof (applyFileActions_manifest (api None) (Some "profile1") "staging"
                (Some "game") manifest decisions world) as (H1 & H2 & H3).
  assert (run = (Resolved [c_txt], run.2)) as Hrun by (vm_compute; reflexivity).
  split; [exact decisions_well_formed|]. split; [exact files_reliable|].
  split; [exact Hrun|]. split; [exact (H1 _ _ Hrun)|]. split.
  - apply H2; [right; right; left|].
    intros d Hd Hp. unfold decisions in Hd.
    repeat (apply elem_of_cons in Hd as [->|Hd]); try done.
    by apply elem_of_nil in Hd.
  - rewrite (H1 _ _ Hrun). exact (H3 decisions_well_formed files_reliable).
Defined.


(** C3 on the sample: the store has no profile. *)
Lemma missing_profile_cancels_witness :
  let r := dealWithExternalChanges (api (Some decisions)) activator
             (Some "profile1") "staging" {[ "" := "game" ]} 1%positive
             world_no_profile in
  passProfile (w_state world_no_profile) (Some "profile1") = None
  ∧ r.1 = Rejected (ProcessCanceled "Profile no longer exists.")
  ∧ w_queries r.2 = [] ∧ w_ops r.2 = [] ∧ w_fs r.2 = files
  ∧ w_heap r.2 = w_heap world_no_profile.
Proof.
  intros r.
  assert (passProfile (w_state world_no_profile) (Some "profile1") = None)
    as Hnone by reflexivity.
  destruct (missing_profile_cancels (api (Some decisions)) activator
              (Some "profile1") "staging" {[ "" := "game" ]} 1%positive
              world_no_profile Hnone)
    as (_ & H2 & H3 & H4 & H5 & H6 & H7 & _).
  fold r in H2, H3. rewrite <- H3 in H4, H5, H6, H7.
  by repeat split.
Defined.



(** C6 on the sample: [ModB] and [ModC] get their event, [ModA], whose
    only decision is a restore, gets none. *)
Lemma mod_content_changed_once_witness :
  let r := applyFileActions (api None) (Some "profile1") "staging" (Some "game")
                            manifest (Some decisions) world in
  ∃ evs,
    w_events r.2 = evs
    ∧ NoDup (ev_modId <$> evs)
    ∧ "ModB" ∈ ev_modId <$> evs
    ∧ "ModC" ∈ ev_modId <$> evs
    ∧ "ModA" ∉ ev_modId <$> evs.
Proof.
  intros r.
  destruct (mod_content_changed_once (api None) (Some "profile1") "staging"
              (Some "game") manifest (Some decisions) world)
    as (evs & Hev & Hnd & _ & Hiff & Hrestore).
  fold r in Hev, Hiff.
  assert (r.1 = Resolved [c_txt]) as Hr by (vm_compute; reflexivity).
  rewrite Hr in Hiff.
  exists evs. split; [exact Hev|]. split; [exact Hnd|]. repeat split.
  - apply Hiff. apply Exists_cons_tl, Exists_cons_hd. split; [done|].
    by left.
  - apply Hiff. do 2 apply Exists_cons_tl. apply Exists_cons_hd.
    split; [done|]. do 2 right. by left.
  - apply Hrestore. intros d Hd Hs. unfold decisions in Hd.
    repeat (apply elem_of_cons in Hd as [->|Hd]); try done.
    by apply elem_of_nil in Hd.
Defined.

(** C8 on the sample: a pass without decisions after the pass with
    decisions returns the manifest of that pass, and a run over the
    untouched target directory changes nothing. *)
Lemma applyFileActions_no_decisions_witness :
  let run := applyFileActions (api None) (Some "profile1") "staging"
                              (Some "game") manifest (Some decisions) world in
  run = (Resolved [c_txt], run.2)
  ∧ applyFileActions (api None) (Some "profile1") "staging" (Some "game")
                     [c_txt] (Some []) run.2
    = (Resolved [c_txt], run.2)
  ∧ passProfile (w_state world) (Some "profile1") = Some profile1
  ∧ w_heap world !! 1%positive = Some {[ "" := manifest ]}
  ∧ no_discrepancy activator "skyrim" "staging" {[ "" := "game" ]}
                   {[ "" := manifest ]} world
  ∧ ∃ ms w',
      dealWithExternalChanges (api None) activator (Some "profile1") "staging"
                              {[ "" := "game" ]} 1%positive world
      = (Resolved ms, w')
      ∧ only_reads world w'.
Proof.
  intros run.
  assert (run = (Resolved [c_txt], run.2)) as Hrun by (vm_compute; reflexivity).
  assert (passProfile (w_state world) (Some "profile1") = Some profile1)
    as Hp by reflexivity.
  assert (w_heap world !! 1%positive = Some {[ "" := manifest ]})
    as Hobj by reflexivity.
  assert (no_discrepancy activator "skyrim" "staging" {[ "" := "game" ]}
                         {[ "" := manifest ]} world) as Hnone.
  { intros typeId mf Hmf.
    apply lookup_singleton_Some in Hmf as [<- <-]. reflexivity. }
  split; [exact Hrun|].
  destruct (applyFileActions_no_decisions (api None) (Some "profile1") "staging"
              (Some "game") manifest world) as (_ & _ & Hagain & Hpass).
  split; [exact (proj1 (Hagain (Some decisions) [c_txt] run.2 Hrun))|].
  split; [exact Hp|]. split; [exact Hobj|]. split; [exact Hnone|].
  destruct (Hpass activator {[ "" := "game" ]} 1%positive {[ "" := manifest ]}
                  profile1 Hp Hobj) as (ms & w' & Hres & Hreads & _).
  - intros k [v Hk]. apply lookup_singleton_Some in Hk as [<- _].
    rewrite lookup_singleton_eq. by eexists.
  - exact Hnone.
  - by exists ms, w'.
Defined.

(** C9 on the sample: [a.txt] is gone from the target directory, the
    dialog answers restore, and the caller's object holds the manifest
    without the row of [a.txt]. *)
Lemma dealWithExternalChanges_updates_in_place_witness :
  let answer := [decision "a.txt" "ModA" Arestore 0 0] in
  let run := dealWithExternalChanges (api (Some answer)) activator
               (Some "profile1") "staging" {[ "" := "game" ]} 1%positive
               world_deleted in
  w_heap world_deleted !! 1%positive = Some {[ "" := manifest ]}
  ∧ run = (Resolved [[b_txt; c_txt]], run.2)
  ∧ ∃ obj', w_heap run.2 !! 1%positive = Some obj'
            ∧ obj' !! "" = Some [b_txt; c_txt].
Proof.
  intros answer run.
  assert (w_heap world_deleted !! 1%positive = Some {[ "" := manifest ]})
    as Hobj by reflexivity.
  assert (run = (Resolved [[b_txt; c_txt]], run.2)) as Hrun
      by (vm_compute; reflexivity).
  split; [exact Hobj|]. split; [exact Hrun|].
  destruct (dealWithExternalChanges_updates_in_place (api (Some answer))
              activator (Some "profile1") "staging" {[ "" := "game" ]}
              1%positive {[ "" := manifest ]} world_deleted _ _ Hobj Hrun)
    as (ans & obj' & Hobj' & _ & Hupd & Hprov & _).
  exists obj'. split; [exact Hobj'|].
  destruct (Hupd "" manifest eq_refl) as (fa & Hfa & Hres).
  destruct Hprov as [->|(changes & _ & Hc)].
  - (* no dialog: excluded, the object would hold the prior manifest *)
    injection Hfa as <-.
    assert (w_heap run.2 !! 1%positive = Some {[ "" := [b_txt; c_txt] ]})
      as Hheap by (vm_compute; reflexivity).
    pose proof (eq_trans (eq_sym Hobj') Hheap) as Heq.
    injection Heq as ->. vm_compute in Hres. discriminate Hres.
  - injection Hc as <-. injection Hfa as <-. rewrite Hres. reflexivity.
Defined.

(** C10 on the sample: [plugins] has a target directory and no
    manifest. *)
Lemma missing_manifest_rejects_witness :
  let r := checkForExternalChanges (api None) activator (Some "profile1")
             "staging" modPaths 1%positive world in
  passProfile (w_state world) (Some "profile1") = Some profile1
  ∧ w_heap world !! 1%positive = Some {[ "" := manifest ]}
  ∧ is_Some (modPaths !! "plugins")
  ∧ ({[ "" := manifest ]} : gmap string (list IDeployedFile.t)) !! "plugins" = None
  ∧ r.1 = Rejected TypeError.
Proof.
  intros r.
  assert (passProfile (w_state world) (Some "profile1") = Some profile1)
    as Hp by reflexivity.
  assert (w_heap world !! 1%positive = Some {[ "" := manifest ]})
    as Hobj by reflexivity.
  assert (is_Some (modPaths !! "plugins")) as Hpath by (by eexists).
  assert (({[ "" := manifest ]} : gmap string (list IDeployedFile.t))
            !! "plugins" = None) as Hmiss by reflexivity.
  destruct (missing_manifest_rejects (api None) activator (Some "profile1")
              "staging" modPaths 1%positive _ "plugins" profile1 world
              Hp Hobj Hpath Hmiss)
    as (e & He & _ & [->|(g & s & p & m & fs & Hact)] & _).
  - by repeat split.
  - discriminate Hact.
Defined.
End OnSample.

(** * Further properties of [externalChanges.ts] *)

Section MoreFacts.
Context {FS : Type} {fsys : FileSystem FS} {node : NodeRuntime}.
Implicit Types w : World FS.

#[global] Instance untouched_preorder : PreOrder (@untouched FS).
Proof.
  split.
  - intros w. by repeat split.
  - intros w1 w2 w3 (?&?&?&?&?) (?&?&?&?&?). repeat split; congruence.
Qed.

#[global] Instance same_dialogs_preorder : PreOrder (@same_dialogs FS).
Proof.
  split.
  - intros w. reflexivity.
  - intros w1 w2 w3 H1 H2. unfold same_dialogs in *. congruence.
Qed.

Lemma Promise_mapSeries_preserves (R : relation (World FS)) `{!PreOrder R}
      {A B} (l : list A) (f : A → M FS B) :
  (∀ x, x ∈ l → preserves R (f x)) → preserves R (Promise_mapSeries l f).
Proof.
  induction l as [|x l IH]; intros Hall; simpl.
  - by apply ret_preserves.
  - apply bind_preserves; [done|apply Hall; left|].
    intros b. apply bind_preserves; [done| |intros bs; by apply ret_preserves].
    apply IH. intros y Hy. apply Hall. by right.
Qed.

(** An empty group: no decision resolves to the action. *)
Lemma group_empty acts a :
  (∀ d, d ∈ acts → effectiveAction d ≠ a) →
  group (actionGroups acts) (action_name a) = [].
Proof. intros Hnone. rewrite group_actionGroups. by apply filter_none. Qed.

Lemma Promise_map_nil {A B} (f : A → Started FS B) w :
  Promise_map [] f w = (Resolved [], w).
Proof. reflexivity. Qed.

(** The whole of [applyFileActions] leaves alone what its file steps leave
    alone, the events apart. *)
Lemma applyFileActions_frame api profileId sourcePath outputPath lastDeployment
      fileActions w :
  let r := applyFileActions api profileId sourcePath outputPath lastDeployment
                            fileActions w in
  w_queries r.2 = w_queries w ∧ w_dialogs r.2 = w_dialogs w
  ∧ w_state r.2 = w_state w ∧ w_heap r.2 = w_heap w.
Proof.
  destruct fileActions as [acts|]; [|by repeat split].
  cbv zeta. rewrite applyFileActions_steps.
  pose proof (fileSteps_only_files sourcePath outputPath acts w)
    as (_ & Hq & Hd & Hs & Hh).
  by destruct (fileSteps _ _ _ w) as [[[]|e] w1].
Qed.

(** The mods of the events, in terms of the decisions. *)
Lemma fold_Set_add (l : list string) : ∀ acc,
  fold_left Set_add l acc = acc ++ filter (fun x => x ∉ acc) (first_occurrences l).
Proof.
  unfold first_occurrences.
  induction l as [|x l IH] using rev_ind; intros acc.
  - simpl. by rewrite app_nil_r.
  - rewrite fold_left_app. simpl. rewrite IH, reverse_snoc. simpl.
    unfold Set_add.
    assert (∀ y, y ∈ reverse l ↔ y ∈ l) as Hrev by (intros y; apply elem_of_reverse).
    destruct (decide_rel elem_of x (reverse l)) as [Hin|Hnin].
    + rewrite decide_True; [done|].
      apply elem_of_app.
      destruct (decide (x ∈ acc)) as [?|Hacc]; [by left|right].
      apply list_elem_of_filter. split; [done|].
      by apply elem_of_reverse, elem_of_remove_dups.
    + rewrite reverse_cons, filter_app.
      destruct (decide (x ∈ acc)) as [Hacc|Hacc].
      * rewrite decide_True by (apply elem_of_app; by left).
        rewrite filter_cons_False, filter_nil, app_nil_r; [done|]. by intros ?.
      * rewrite decide_False.
        -- rewrite filter_cons_True, filter_nil by done. by rewrite app_assoc.
        -- intros [?|[_ Hx]%list_elem_of_filter]%elem_of_app; [done|].
           apply Hnin.
           by rewrite elem_of_reverse, elem_of_remove_dups in Hx.
Qed.

Lemma affectedMods_first_occurrences acts :
  affectedMods acts
  = first_occurrences (IFileEntry.source <$> filter is_affecting acts).
Proof.
  unfold affectedMods.
  transitivity (fold_left Set_add
                  (IFileEntry.source <$> filter is_affecting acts) []).
  - generalize (@nil string).
    induction acts as [|d acts IH]; intros acc; [done|]. simpl.
    destruct (decide (is_affecting d)) as [Hd|Hd].
    + rewrite filter_cons_True by done. rewrite decide_True by exact Hd.
      rewrite fmap_cons. simpl. apply IH.
    + rewrite filter_cons_False by done. rewrite decide_False by exact Hd.
      apply IH.
  - rewrite fold_Set_add. simpl. apply filter_all.
    intros x _ H. by apply elem_of_nil in H.
Qed.
End MoreFacts.

Section MoreApplyFacts.
Context {FS : Type} {fsys : FileSystem FS} {node : NodeRuntime}.
Implicit Types w : World FS.







(** The keys of the groups are the actions some decision resolves to. *)
Lemma actionGroups_keys acts : ∀ g,
  (∀ key l, g !! key = Some l → ∃ a, key = action_name a ∧ a ≠ Anewest ∧ l ≠ []) →
  ∀ key l, fold_left groupStep acts g !! key = Some l →
           ∃ a, key = action_name a ∧ a ≠ Anewest ∧ l ≠ [].
Proof.
  induction acts as [|v acts IH]; intros g Hg; [done|]. simpl.
  apply IH. intros key l. unfold groupStep, setdefault.
  assert (effectiveAction v ≠ Anewest) as Hne.
  { unfold effectiveAction. destruct (IFileEntry.action v); try done.
    by destruct (_ >? _). }
  destruct (g !! action_name (effectiveAction v)) as [arr|] eqn:E.
  - rewrite lookup_insert. case_decide as Hk.
    + intros [= <-]. exists (effectiveAction v). split; [done|]. split; [done|].
      by destruct arr.
    + apply Hg.
  - rewrite insert_insert_eq, lookup_insert. case_decide as Hk.
    + intros [= <-]. by exists (effectiveAction v).
    + apply Hg.
Qed.
End MoreApplyFacts.

Section MoreApplyProperties.
Context {FS : Type} {fsys : FileSystem FS} {node : NodeRuntime}.
Implicit Types w : World FS.

(** X1.  Whatever its input and its outcome, [applyFileActions] leaves the
    manifest object of the caller and the store state as they were, queries
    no deployment method and shows no dialog: it acts on files, the log and
    the event channel only. *)
Theorem applyFileActions_acts_on_files_and_events_only api profileId sourcePath
        outputPath lastDeployment fileActions w :
  let r := applyFileActions api profileId sourcePath outputPath lastDeployment
                            fileActions w in
  w_heap r.2 = w_heap w ∧ w_state r.2 = w_state w
  ∧ w_queries r.2 = w_queries w ∧ w_dialogs r.2 = w_dialogs w.
Proof.
  intros r. subst r.
  destruct (applyFileActions_frame api profileId sourcePath outputPath
              lastDeployment fileActions w) as (Hq & Hd & Hs & Hh).
  by repeat split.
Qed.

(** X2.  A pass whose decisions are all restore or nop performs no file
    operation and writes no log line, and it resolves on any file system
    and for any target directory, known or not: restoring is left to the
    next deployment, by dropping the rows from the manifest. *)
Theorem restore_and_nop_touch_no_file api profileId sourcePath outputPath
        lastDeployment (fileActions : list IFileEntry.t) w :
  (∀ d, d ∈ fileActions →
        IFileEntry.action d = Arestore ∨ IFileEntry.action d = Anop) →
  ∃ w',
    applyFileActions api profileId sourcePath outputPath lastDeployment
                     (Some fileActions) w
    = (Resolved (filter (fun e => ¬ invalidates fileActions (IDeployedFile.relPath e))
                        lastDeployment), w')
    ∧ w_fs w' = w_fs w ∧ w_ops w' = w_ops w ∧ w_log w' = w_log w.
Proof.
  intros Hall.
  assert (∀ a, a ∈ [Adrop; Adelete; Aimport] →
               group (actionGroups fileActions) (action_name a) = []) as Hempty.
  { intros a Ha. apply group_empty. intros d Hd Heq.
    unfold effectiveAction in Heq.
    destruct (Hall d Hd) as [Hr|Hr]; rewrite Hr in Heq; subst a; not_listed Ha. }
  rewrite applyFileActions_steps.
  assert (fileSteps sourcePath outputPath fileActions w = (Resolved tt, w)) as ->.
  { unfold fileSteps.
    change "drop" with (action_name Adrop).
    change "delete" with (action_name Adelete).
    change "import" with (action_name Aimport).
    rewrite !Hempty; [done| | |].
    - do 2 right. left.
    - right. left.
    - left. }
  eexists. rewrite rebuild_spec. by repeat split.
Qed.


(** X4.  The manifest a pass returns is a sublist of the prior manifest:
    no row is added, changed or reordered.  If no two rows of the prior
    manifest share a [relPath], no two rows of the returned one do.  And
    the same decisions applied to the returned manifest return it
    unchanged. *)
Theorem returned_manifest_is_sublist api profileId sourcePath outputPath
        lastDeployment (fileActions : list IFileEntry.t) w m w' :
  applyFileActions api profileId sourcePath outputPath lastDeployment
                   (Some fileActions) w = (Resolved m, w') →
  m `sublist_of` lastDeployment
  ∧ (NoDup (IDeployedFile.relPath <$> lastDeployment) →
     NoDup (IDeployedFile.relPath <$> m))
  ∧ ∀ w2 m2 w2',
      applyFileActions api profileId sourcePath outputPath m (Some fileActions) w2
      = (Resolved m2, w2') →
      m2 = m.
Proof.
  assert (∀ l w0 m0 w0',
             applyFileActions api profileId sourcePath outputPath l
                              (Some fileActions) w0 = (Resolved m0, w0') →
             m0 = filter (fun e => ¬ invalidates fileActions
                                     (IDeployedFile.relPath e)) l) as Hret.
  { intros l w0 m0 w0'. rewrite applyFileActions_steps, rebuild_spec.
    destruct (fileSteps _ _ _ w0) as [[[]|e] w1]; [|done]. by intros [= <- _]. }
  intros ->%Hret. split; [apply sublist_filter|]. split.
  - intros Hnd. eapply sublist_NoDup; [exact Hnd|].
    apply fmap_sublist, sublist_filter.
  - intros w2 m2 w2' ->%Hret. rewrite list_filter_filter.
    apply list_filter_iff. tauto.
Qed.

(** X5.  The groups the decisions are sorted into: a key is present
    exactly when it is the name of an action other than newest that some
    decision resolves to, and its group holds, in their order, the
    decisions that resolve to it.  No group is empty and no key is
    [newest]. *)
Theorem actionGroups_lookup (fileActions : list IFileEntry.t) key l :
  actionGroups fileActions !! key = Some l
  ↔ ∃ a, key = action_name a ∧ a ≠ Anewest
         ∧ l = filter (fun v => effectiveAction v = a) fileActions
         ∧ l ≠ [].
Proof.
  split.
  - intros Hl.
    destruct (actionGroups_keys fileActions ∅) with (key := key) (l := l)
      as (a & -> & Hne & Hnil); [by intros ?? ?%lookup_empty_Some|done|].
    exists a. repeat split; try done.
    rewrite <- group_actionGroups. unfold group. by rewrite Hl.
  - intros (a & -> & _ & -> & Hnil).
    pose proof (group_actionGroups fileActions a) as Hg. unfold group in Hg.
    destruct (actionGroups fileActions !! action_name a) as [l'|]; simpl in Hg.
    + by rewrite Hg.
    + by rewrite <- Hg in Hnil.
Qed.

(** X6.  When the pass is given no profile id, or one that names no
    profile, every event it emits carries the game of the active profile
    (undefined when there is none). *)
Theorem events_fall_back_to_active_game api profileId sourcePath outputPath
        lastDeployment fileActions w :
  profileId ≫= profileById (w_state w) = None →
  let r := applyFileActions api profileId sourcePath outputPath lastDeployment
                            fileActions w in
  ∃ evs, w_events r.2 = w_events w ++ evs
         ∧ ∀ ev, ev ∈ evs → ev_gameId ev = activeGameId (w_state w).
Proof.
  intros Hnone r. subst r.
  destruct fileActions as [acts|].
  2:{ exists []. simpl. rewrite app_nil_r. split; [done|].
      intros ev H. by apply elem_of_nil in H. }
  rewrite applyFileActions_steps.
  pose proof (fileSteps_only_files sourcePath outputPath acts w)
    as (Hev & _ & _ & Hst & _).
  destruct (fileSteps _ _ _ w) as [[[]|e] w1]; simpl in *.
  - eexists. split; [by rewrite Hev|].
    intros ev (x & -> & _)%list_elem_of_fmap. simpl. rewrite Hst.
    unfold eventGameId. destruct profileId as [pid|]; simpl in Hnone; [|done].
    by rewrite Hnone.
  - exists []. rewrite app_nil_r. split; [done|].
    intros ev H. by apply elem_of_nil in H.
Qed.

(** X7.  The events of a pass that resolves are emitted for the affected
    mods in the order in which the mods first occur as the source of a
    decision with action import, newest, nop, delete or drop, all with
    the same game id. *)
Theorem events_in_order_of_first_occurrence api profileId sourcePath outputPath
        lastDeployment (fileActions : list IFileEntry.t) w m w' :
  applyFileActions api profileId sourcePath outputPath lastDeployment
                   (Some fileActions) w = (Resolved m, w') →
  w_events w'
  = w_events w
    ++ (mkEvent "mod-content-changed" (eventGameId (w_state w) profileId)
          <$> first_occurrences
                (IFileEntry.source <$> filter is_affecting fileActions)).
Proof.
  rewrite applyFileActions_steps.
  pose proof (fileSteps_only_files sourcePath outputPath fileActions w)
    as (Hev & _ & _ & Hst & _).
  destruct (fileSteps _ _ _ w) as [[[]|e] w1]; [|done]. simpl in *.
  intros [= _ <-]. simpl.
  by rewrite Hev, Hst, affectedMods_first_occurrences.
Qed.

End MoreApplyProperties.

Section MorePassFacts.
Context {FS : Type} {fsys : FileSystem FS} {node : NodeRuntime}.
Implicit Types w : World FS.

Lemma Object_keys_nil {V} (m : gmap string V) : Object_keys m = [] ↔ m = ∅.
Proof.
  split.
  - intros Hnil. apply map_empty. intros k.
    destruct (m !! k) as [v|] eqn:E; [|done].
    assert (k ∈ Object_keys m) as Hk by (apply elem_of_Object_keys; by eexists).
    rewrite Hnil in Hk. by apply elem_of_nil in Hk.
  - intros ->. apply Permutation_nil_r.
    by rewrite Object_keys_perm, map_to_list_empty.
Qed.

(** What one resolved [checkType] did. *)
Lemma checkType_resolved activator profile stagingPath modPaths lastDeployment obj
      typeId changes w changes' w' :
  w_heap w !! lastDeployment = Some obj →
  checkType activator profile stagingPath modPaths lastDeployment typeId changes w
  = (Resolved changes', w') →
  ∃ manifest cs,
    obj !! typeId = Some manifest
    ∧ externalChanges activator (IProfile.gameId profile) stagingPath
                      (modPaths !! typeId) manifest (w_fs w) = inr cs
    ∧ changes' = (if decide (cs = []) then changes else <[typeId := cs]> changes)
    ∧ w_queries w'
      = w_queries w ++ [mkQuery (IProfile.gameId profile) stagingPath
                                (modPaths !! typeId) manifest]
    ∧ w_fs w' = w_fs w ∧ w_heap w' = w_heap w.
Proof.
  intros Hobj. unfold checkType, bind, get_prop, log, activator_externalChanges.
  rewrite Hobj. destruct (obj !! typeId) as [manifest|]; [|done]. simpl.
  destruct (externalChanges _ _ _ _ _ _) as [e|cs] eqn:E; [done|].
  intros Hres. exists manifest, cs. split; [done|]. split; [done|].
  destruct cs as [|c cs].
  - rewrite decide_True by done. simpl in Hres. by injection Hres as <- <-.
  - rewrite decide_False by done. simpl in Hres. by injection Hres as <- <-.
Qed.

Lemma check_types_result activator profile stagingPath modPaths lastDeployment obj
      keys :
  NoDup keys →
  ∀ changes w changes' w',
    w_heap w !! lastDeployment = Some obj →
    Promise_each keys
      (checkType activator profile stagingPath modPaths lastDeployment) changes w
    = (Resolved changes', w') →
    w_fs w' = w_fs w ∧ w_heap w' = w_heap w
    ∧ w_queries w'
      = w_queries w
        ++ ((fun k => mkQuery (IProfile.gameId profile) stagingPath
                              (modPaths !! k) (default [] (obj !! k)))
              <$> keys)
    ∧ (∀ k, k ∈ keys →
            ∃ manifest cs,
              obj !! k = Some manifest
              ∧ externalChanges activator (IProfile.gameId profile) stagingPath
                                (modPaths !! k) manifest (w_fs w) = inr cs
              ∧ changes' !! k = (if decide (cs = []) then changes !! k
                                 else Some cs))
    ∧ (∀ k, k ∉ keys → changes' !! k = changes !! k).
Proof.
  induction 1 as [|k keys Hk Hnd IH]; intros changes w changes' w' Hobj Hrun;
    simpl in Hrun.
  - injection Hrun as <- <-. rewrite fmap_nil, app_nil_r. repeat split; try done.
    intros k Hk. by apply elem_of_nil in Hk.
  - apply bind_resolved in Hrun as (s1 & w1 & Hstep & Hrest).
    destruct (checkType_resolved _ _ _ _ _ _ _ _ _ _ _ Hobj Hstep)
      as (manifest & cs & Hm & Hext & Hs1 & Hq & Hfs & Hheap).
    assert (w_heap w1 !! lastDeployment = Some obj) as Hobj1 by by rewrite Hheap.
    destruct (IH _ _ _ _ Hobj1 Hrest) as (Hfs' & Hheap' & Hq' & Hin & Hout).
    split; [congruence|]. split; [congruence|]. split; [|split].
    + rewrite Hq', Hq, fmap_cons, Hm. simpl. by rewrite <- app_assoc.
    + intros k' [->|Hk']%elem_of_cons.
      * exists manifest, cs. split; [done|]. split; [done|].
        rewrite (Hout k Hk), Hs1. case_decide; [done|].
        by rewrite lookup_insert_eq.
      * destruct (Hin k' Hk') as (mf & cs' & Hmf & Hext' & Hres).
        exists mf, cs'. split; [done|]. split; [by rewrite <- Hfs|].
        rewrite Hres, Hs1. destruct (decide (cs' = [])); [|done].
        destruct (decide (cs = [])); [done|].
        rewrite lookup_insert_ne; [done|]. by intros ->.
    + intros k' [Hne Hk']%not_elem_of_cons. rewrite (Hout k' Hk'), Hs1.
      case_decide; [done|]. by rewrite lookup_insert_ne.
Qed.

Lemma set_prop_same_dialogs obj key value :
  preserves same_dialogs (set_prop (FS := FS) obj key value).
Proof. intros w. unfold set_prop. by destruct (w_heap w !! obj). Qed.

Lemma reconcileType_same_dialogs api profileId stagingPath modPaths lastDeployment
      fileActions typeId :
  preserves same_dialogs
    (reconcileType api profileId stagingPath modPaths lastDeployment fileActions
                   typeId).
Proof.
  intros w. unfold reconcileType, bind.
  pose proof (get_prop_same_world lastDeployment typeId w) as Hw.
  destruct (get_prop lastDeployment typeId w) as [[[manifest|]|e] w0];
    simpl in Hw; subst w0; cbv beta iota; try reflexivity.
  destruct fileActions as [acts|]; cbv beta iota; [|reflexivity].
  pose proof (applyFileActions_frame api profileId stagingPath (modPaths !! typeId)
                manifest
                (Some (filter (fun a => IFileEntry.modTypeId a = typeId) acts)) w)
    as (_ & Hd & _).
  destruct (applyFileActions _ _ _ _ _ _ w) as [[m|e] w1]; simpl in *;
    [|exact Hd].
  pose proof (set_prop_same_dialogs lastDeployment typeId m w1) as Hs.
  destruct (set_prop lastDeployment typeId m w1) as [[[]|e] w2]; simpl in *;
    unfold same_dialogs in *; congruence.
Qed.

(** The pass up to the answer of the dialog. *)
Lemma dealWithExternalChanges_after_check api activator profileId stagingPath
      modPaths lastDeployment changes w w1 :
  checkForExternalChanges api activator profileId stagingPath modPaths
                          lastDeployment w = (Resolved changes, w1) →
  dealWithExternalChanges api activator profileId stagingPath modPaths
                          lastDeployment w
  = if decide (dom changes = ∅) then
      (await obj := deref lastDeployment in
       Promise_mapSeries (Object_keys obj)
         (reconcileType api profileId stagingPath modPaths lastDeployment
                        (Some []))) w1
    else
      (await fileActions := store_dispatch api changes in
       await obj := deref lastDeployment in
       Promise_mapSeries (Object_keys obj)
         (reconcileType api profileId stagingPath modPaths lastDeployment
                        fileActions))
        (add_log ("info", "found external changes") w1).
Proof.
  intros Hcheck. unfold dealWithExternalChanges.
  erewrite bind_step by exact Hcheck.
  case_decide as Hdom.
  - apply dom_empty_inv_L in Hdom. subst changes.
    by rewrite (proj2 (Object_keys_nil ∅) eq_refl).
  - destruct (Object_keys changes) as [|k ks] eqn:Hkeys.
    + apply Object_keys_nil in Hkeys. subst changes.
      by rewrite dom_empty_L in Hdom.
    + done.
Qed.
End MorePassFacts.

Section MorePassProperties.
Context {FS : Type} {fsys : FileSystem FS} {node : NodeRuntime}.
Implicit Types w : World FS.

Lemma deref_same_world (R : relation (World FS)) `{!PreOrder R} obj :
  preserves R (deref (FS := FS) obj).
Proof. intros w. unfold deref. destruct (w_heap w !! obj); simpl; reflexivity. Qed.

Lemma reconcile_all_same_dialogs api profileId stagingPath modPaths lastDeployment
      fileActions :
  preserves same_dialogs
    (await obj := deref lastDeployment in
     Promise_mapSeries (Object_keys obj)
       (reconcileType api profileId stagingPath modPaths lastDeployment
                      fileActions)).
Proof.
  apply bind_preserves; [apply _|by apply deref_same_world; apply _|].
  intros obj. apply Promise_mapSeries_preserves; [apply _|].
  intros k _. apply reconcileType_same_dialogs.
Qed.

Lemma only_reads_untouched w w' : only_reads w w' → untouched w w'.
Proof. intros (?&?&?&?&?&?). by repeat split. Qed.

(** X9.  The detection reads only: whatever its input and its outcome,
    [checkForExternalChanges] performs no file operation, emits no event,
    shows no dialog and leaves the manifest object and the store state as
    they were; it only logs and queries the deployment method. *)
Theorem detection_is_read_only api activator profileId stagingPath modPaths
        lastDeployment w :
  only_reads w (checkForExternalChanges api activator profileId stagingPath
                                        modPaths lastDeployment w).2.
Proof.
  apply (checkForExternalChanges_preserves only_reads log_only_reads
           activator_only_reads).
Qed.

(** X10.  When the detection resolves, the deployment method was queried
    once for each mod type of [modPaths], in the order of the keys, with
    the game of the profile, the staging path, the target directory of the
    type and the manifest of the type.  The result has an entry for a mod
    type exactly when the answer for it is not empty, and the entry is
    that answer: a type without discrepancies gets no key. *)
Theorem detection_result api activator profileId stagingPath modPaths
        lastDeployment obj profile w changes w' :
  passProfile (w_state w) profileId = Some profile →
  w_heap w !! lastDeployment = Some obj →
  checkForExternalChanges api activator profileId stagingPath modPaths
                          lastDeployment w = (Resolved changes, w') →
  w_queries w'
  = w_queries w
    ++ ((fun k => mkQuery (IProfile.gameId profile) stagingPath (modPaths !! k)
                          (default [] (obj !! k)))
          <$> Object_keys modPaths)
  ∧ (∀ typeId, is_Some (modPaths !! typeId) → is_Some (obj !! typeId))
  ∧ ∀ typeId cs,
      changes !! typeId = Some cs
      ↔ cs ≠ [] ∧ is_Some (modPaths !! typeId)
        ∧ ∃ manifest,
            obj !! typeId = Some manifest
            ∧ externalChanges activator (IProfile.gameId profile) stagingPath
                              (modPaths !! typeId) manifest (w_fs w) = inr cs.
Proof.
  intros Hprofile Hobj Hrun.
  unfold checkForExternalChanges, bind, log, getState in Hrun. simpl in Hrun.
  rewrite Hprofile in Hrun.
  destruct (check_types_result activator profile stagingPath modPaths
              lastDeployment obj (Object_keys modPaths)
              (NoDup_Object_keys modPaths) ∅
              (add_log ("debug", "determine external changes") w) _ _ Hobj Hrun)
    as (_ & _ & Hq & Hin & Hout).
  simpl in Hq, Hin.
  split; [exact Hq|]. split.
  - intros typeId Hk%elem_of_Object_keys.
    destruct (Hin typeId Hk) as (mf & cs & -> & _). by eexists.
  - intros typeId cs. split.
    + intros Hcs.
      destruct (decide (typeId ∈ Object_keys modPaths)) as [Hk|Hk].
      * destruct (Hin typeId Hk) as (mf & cs' & Hmf & Hext & Hres).
        rewrite Hcs in Hres. destruct (decide (cs' = [])) as [->|Hne].
        -- by rewrite lookup_empty in Hres.
        -- injection Hres as ->. split; [done|].
           split; [by apply elem_of_Object_keys|]. by exists mf.
      * rewrite (Hout typeId Hk), lookup_empty in Hcs. done.
    + intros (Hne & Hk%elem_of_Object_keys & mf & Hmf & Hext).
      destruct (Hin typeId Hk) as (mf' & cs' & Hmf' & Hext' & Hres).
      rewrite Hmf in Hmf'. injection Hmf' as <-.
      simpl in Hext'. rewrite Hext in Hext'. injection Hext' as <-.
      by rewrite Hres, decide_False.
Qed.

(** X11.  A pass shows at most one dialog, after the detection and before
    any decision is applied: none when the detection is rejected or finds
    no discrepancy, and otherwise one, for the discrepancies the detection
    found.  This holds whether the pass resolves or not. *)
Theorem dialog_shown_once_for_changes api activator profileId stagingPath modPaths
        lastDeployment w :
  let r := dealWithExternalChanges api activator profileId stagingPath modPaths
                                   lastDeployment w in
  match (checkForExternalChanges api activator profileId stagingPath modPaths
                                 lastDeployment w).1 with
  | Resolved changes =>
      w_dialogs r.2
      = w_dialogs w ++ (if decide (dom changes = ∅) then [] else [changes])
  | Rejected _ => w_dialogs r.2 = w_dialogs w
  end.
Proof.
  intros r. subst r.
  pose proof (checkForExternalChanges_preserves only_reads log_only_reads
                activator_only_reads api activator profileId stagingPath
                modPaths lastDeployment w) as (_ & _ & _ & Hdlg & _).
  destruct (checkForExternalChanges _ _ _ _ _ _ w) as [[changes|e] w1] eqn:Hcheck;
    simpl in *.
  - rewrite (dealWithExternalChanges_after_check _ _ _ _ _ _ _ _ _ Hcheck).
    case_decide.
    + rewrite app_nil_r, <- Hdlg. apply reconcile_all_same_dialogs.
    + unfold bind at 1. unfold store_dispatch.
      destruct (dispatch_showExternalChanges api changes) as [e|answer]; simpl.
      * by rewrite Hdlg.
      * rewrite <- Hdlg.
        exact (reconcile_all_same_dialogs api profileId stagingPath modPaths
                 lastDeployment answer
                 (add_dialog changes
                    (add_log ("info", "found external changes") w1))).
  - unfold dealWithExternalChanges. erewrite bind_rejected by exact Hcheck. done.
Qed.

(** X12.  When discrepancies were found and the dialog resolves to
    undefined, nothing is applied: the files, the events and the manifest
    object stay as they were.  The pass is then rejected with a
    [TypeError] as soon as the manifest object has a mod type, and it
    resolves to the empty list when the object has none: an undefined
    answer is not taken for an empty decision list. *)
Theorem undefined_answer_applies_nothing api activator profileId stagingPath
        modPaths lastDeployment obj changes w w1 :
  checkForExternalChanges api activator profileId stagingPath modPaths
                          lastDeployment w = (Resolved changes, w1) →
  dom changes ≠ ∅ →
  dispatch_showExternalChanges api changes = inr None →
  w_heap w !! lastDeployment = Some obj →
  let r := dealWithExternalChanges api activator profileId stagingPath modPaths
                                   lastDeployment w in
  untouched w r.2
  ∧ (obj ≠ ∅ → r.1 = Rejected TypeError)
  ∧ (obj = ∅ → r.1 = Resolved []).
Proof.
  intros Hcheck Hdom Hanswer Hobj r. subst r.
  pose proof (detection_frame := checkForExternalChanges_preserves only_reads
                log_only_reads activator_only_reads api activator profileId
                stagingPath modPaths lastDeployment w).
  rewrite Hcheck in detection_frame. simpl in detection_frame.
  apply only_reads_untouched in detection_frame as Hw1.
  set (w2 := add_dialog changes (add_log ("info", "found external changes") w1)).
  assert (untouched w w2) as Hw2 by exact Hw1.
  assert (w_heap w2 !! lastDeployment = Some obj) as Hobj2.
  { destruct Hw1 as (_ & _ & _ & _ & Hh). simpl. by rewrite Hh. }
  assert (dealWithExternalChanges api activator profileId stagingPath modPaths
                                  lastDeployment w
          = (match Object_keys obj with
             | [] => Resolved []
             | _ :: _ => Rejected TypeError
             end, w2)) as ->.
  { rewrite (dealWithExternalChanges_after_check _ _ _ _ _ _ _ _ _ Hcheck).
    rewrite decide_False by done.
    unfold bind at 1. unfold store_dispatch. rewrite Hanswer. fold w2.
    unfold bind at 1. unfold deref. rewrite Hobj2.
    destruct (Object_keys obj) as [|k ks]; [done|].
    assert (reconcileType api profileId stagingPath modPaths lastDeployment None
                          k w2 = (Rejected TypeError, w2)) as Hstep.
    { unfold reconcileType, bind, get_prop. rewrite Hobj2.
      by destruct (obj !! k). }
    simpl. by erewrite bind_rejected by exact Hstep. }
  simpl. split; [exact Hw2|]. split.
  - intros Hne. destruct (Object_keys obj) as [|k ks] eqn:Hkeys; [|done].
    by apply Object_keys_nil in Hkeys.
  - intros ->. by rewrite (proj2 (Object_keys_nil ∅) eq_refl).
Qed.

(** X13.  When discrepancies were found and the dialog is rejected, the
    pass is rejected with the error of the dialog and nothing is applied:
    the files, the events and the manifest object stay as they were. *)
Theorem rejected_dialog_applies_nothing api activator profileId stagingPath
        modPaths lastDeployment changes e w w1 :
  checkForExternalChanges api activator profileId stagingPath modPaths
                          lastDeployment w = (Resolved changes, w1) →
  dom changes ≠ ∅ →
  dispatch_showExternalChanges api changes = inl e →
  let r := dealWithExternalChanges api activator profileId stagingPath modPaths
                                   lastDeployment w in
  r.1 = Rejected e ∧ untouched w r.2.
Proof.
  intros Hcheck Hdom Hanswer r. subst r.
  pose proof (detection_frame := checkForExternalChanges_preserves only_reads
                log_only_reads activator_only_reads api activator profileId
                stagingPath modPaths lastDeployment w).
  rewrite Hcheck in detection_frame. simpl in detection_frame.
  apply only_reads_untouched in detection_frame as Hw1.
  rewrite (dealWithExternalChanges_after_check _ _ _ _ _ _ _ _ _ Hcheck).
  rewrite decide_False by done.
  unfold bind at 1. unfold store_dispatch. rewrite Hanswer. simpl.
  split; [done|exact Hw1].
Qed.
End MorePassProperties.

(** * Properties of [util/util.ts] *)

Lemma string_length_append (a b : string) :
  String.length (a +:+ b) = (String.length a + String.length b)%nat.
Proof. induction a as [|c a IH]; simpl; [done|]. by rewrite IH. Qed.

Lemma string_length_substring (s : string) : ∀ n m,
  String.length (String.substring n m s) = (m `min` (String.length s - n))%nat.
Proof.
  induction s as [|c s IH]; intros n m.
  - destruct n, m; simpl; lia.
  - destruct n as [|n]; simpl.
    + destruct m as [|m]; simpl; [done|]. rewrite IH. lia.
    + rewrite IH. lia.
Qed.

Lemma countIf_fold {T} (predicate : T → bool) (container : list T) : ∀ n,
  fold_left (fun count value => (count + (if predicate value then 1 else 0))%nat)
            container n
  = (n + length (filter (fun x => predicate x = true) container))%nat.
Proof.
  induction container as [|x l IH]; intros n; simpl; [lia|].
  rewrite IH, filter_cons. destruct (predicate x).
  - rewrite decide_True by done. simpl. lia.
  - rewrite decide_False by done. lia.
Qed.


(** X15.  [countIf] counts the elements the predicate holds for: it is
    the length of the filtered array, at most the length of the array and
    equal to it exactly when the predicate holds throughout, and the count
    of a concatenation is the sum of the counts. *)
Theorem countIf_counts {T} (predicate : T → bool) (l1 l2 : list T) :
  countIf l1 predicate = length (filter (fun x => predicate x = true) l1)
  ∧ (countIf l1 predicate ≤ length l1)%nat
  ∧ (countIf l1 predicate = length l1 ↔ ∀ x, x ∈ l1 → predicate x = true)
  ∧ countIf (l1 ++ l2) predicate
    = (countIf l1 predicate + countIf l2 predicate)%nat.
Proof.
  unfold countIf. rewrite !countIf_fold. simpl.
  split; [done|]. split; [apply length_filter|]. split.
  - split.
    + intros Hlen x Hx.
      destruct (predicate x) eqn:Hp; [done|]. exfalso.
      induction l1 as [|y l IH]; [by apply elem_of_nil in Hx|].
      rewrite filter_cons in Hlen. case_decide as Hy.
      * simpl in Hlen. apply elem_of_cons in Hx as [->|Hx]; [congruence|].
        apply IH; [lia|done].
      * pose proof (length_filter (fun x => predicate x = true) l).
        simpl in Hlen. lia.
    + intros Hall. by rewrite filter_all.
  - rewrite filter_app, length_app. done.
Qed.

Lemma js_substr_from_start (s : string) (l : Z) :
  js_substr s 0 (Some l)
  = String.substring 0 (Z.to_nat (Z.min (Z.max l 0) (Z.of_nat (String.length s)))) s.
Proof.
  unfold js_substr. change (0 <? 0) with false. cbv beta iota zeta.
  f_equal; lia.
Qed.

Lemma js_substr_to_end (s : string) (start : Z) :
  0 ≤ start →
  js_substr s start None
  = String.substring (Z.to_nat (Z.min start (Z.of_nat (String.length s))))
                     (String.length s
                      - Z.to_nat (Z.min start (Z.of_nat (String.length s)))) s.
Proof.
  intros Hstart. unfold js_substr.
  rewrite (proj2 (Z.ltb_ge _ _)) by lia. cbv beta iota zeta.
  f_equal; lia.
Qed.

Lemma half_sum (n : Z) : n / 2 + (n - 1) / 2 = n - 1.
Proof.
  destruct (Z.Even_or_Odd n) as [[h ->]|[h ->]].
  - replace (2 * h) with (h * 2) at 1 by lia. rewrite Z.div_mul by lia.
    replace (2 * h - 1) with (1 + (h - 1) * 2) by lia.
    rewrite Z.div_add by lia. change (1 / 2) with 0. lia.
  - replace (2 * h + 1) with (1 + h * 2) at 1 by lia.
    rewrite Z.div_add by lia. change (1 / 2) with 0.
    replace (2 * h + 1 - 1) with (h * 2) by lia.
    rewrite Z.div_mul by lia. lia.
Qed.

(** X16.  [midClip] returns an input of at most [maxLength] characters
    unchanged.  A longer input, for [maxLength] of four or more, becomes
    its first [maxLength / 2 - 2] characters, three dots and its last
    [(maxLength - 1) / 2] characters: exactly [maxLength] characters.  For
    [maxLength] below four the result of clipping is longer than
    [maxLength]. *)
Theorem midClip_length (input : string) (maxLength : Z) :
  let len := String.length input in
  (Z.of_nat len ≤ maxLength → midClip input maxLength = input)
  ∧ (4 ≤ maxLength < Z.of_nat len →
     midClip input maxLength
     = (String.substring 0 (Z.to_nat (maxLength / 2 - 2)) input
        +:+ "..."
        +:+ String.substring (len - Z.to_nat ((maxLength - 1) / 2))
                             (Z.to_nat ((maxLength - 1) / 2)) input)%string
     ∧ Z.of_nat (String.length (midClip input maxLength)) = maxLength)
  ∧ (maxLength < 4 → maxLength < Z.of_nat len →
     maxLength < Z.of_nat (String.length (midClip input maxLength))).
Proof.
  intros len. unfold midClip. fold len. split; [|split].
  - intros Hle. by rewrite (proj2 (Z.leb_le _ _) Hle).
  - intros [H4 Hlt]. rewrite (proj2 (Z.leb_gt _ _) Hlt).
    pose proof (half_sum maxLength) as Hsum.
    assert (2 ≤ maxLength / 2) as Hhalf by (apply Z.div_le_lower_bound; lia).
    assert (0 ≤ (maxLength - 1) / 2) as Htail by (apply Z.div_pos; lia).
    assert ((maxLength - 4) ÷ 2 = maxLength / 2 - 2) as ->.
    { rewrite Z.quot_div_nonneg by lia.
      replace (maxLength - 4) with (maxLength + (-2) * 2) by lia.
      rewrite Z.div_add by lia. lia. }
    assert ((2 * Z.of_nat len - maxLength + 2) ÷ 2
            = Z.of_nat len - (maxLength - 1) / 2) as ->.
    { rewrite Z.quot_div_nonneg by lia.
      replace (2 * Z.of_nat len - maxLength + 2)
        with ((maxLength + 2) + (Z.of_nat len - maxLength) * 2) by lia.
      rewrite Z.div_add by lia.
      replace (maxLength + 2) with (maxLength + 1 * 2) by lia.
      rewrite Z.div_add by lia. lia. }
    rewrite js_substr_from_start, js_substr_to_end by lia. fold len.
    replace (Z.to_nat (((maxLength / 2 - 2) `max` 0) `min` Z.of_nat len))
      with (Z.to_nat (maxLength / 2 - 2)) by lia.
    replace (Z.to_nat ((Z.of_nat len - (maxLength - 1) / 2) `min` Z.of_nat len))
      with (len - Z.to_nat ((maxLength - 1) / 2))%nat by lia.
    replace (len - (len - Z.to_nat ((maxLength - 1) / 2)))%nat
      with (Z.to_nat ((maxLength - 1) / 2)) by lia.
    split; [done|].
    rewrite !string_length_append, !string_length_substring. simpl String.length.
    fold len. lia.
  - intros H4 Hlt. rewrite (proj2 (Z.leb_gt _ _) Hlt).
    rewrite !string_length_append. simpl String.length.
    destruct (decide (maxLength = 3)) as [->|Hne]; [|lia].
    assert ((2 * Z.of_nat len - 3 + 2) ÷ 2 = Z.of_nat len - 1) as ->.
    { rewrite Z.quot_div_nonneg by lia.
      replace (2 * Z.of_nat len - 3 + 2) with (1 + (Z.of_nat len - 1) * 2) by lia.
      rewrite Z.div_add by lia. change (1 / 2) with 0. lia. }
    rewrite js_substr_to_end by lia. fold len.
    rewrite string_length_substring. fold len. lia.
Qed.

Lemma every_at_index_lookup (tokens childTokens : list string) :
  every_at_index tokens childTokens = true
  ↔ ∀ i token, tokens !! i = Some token → childTokens !! i = Some token.
Proof.
  unfold every_at_index. rewrite forallb_forall. split.
  - intros Hall i token Hi.
    specialize (Hall (i, token)). simpl in Hall.
    eapply bool_decide_eq_true_1, Hall, list_elem_of_In, list_elem_of_lookup.
    exists i. by rewrite list_lookup_imap, Hi.
  - intros Hall [i token] Hin%list_elem_of_In%list_elem_of_lookup.
    destruct Hin as [j Hj]. rewrite list_lookup_imap in Hj.
    destruct (tokens !! j) as [t|] eqn:Ht; [|done].
    injection Hj as <- <-. simpl. apply bool_decide_eq_true_2. by apply Hall.
Qed.

Lemma prefix_of_lookup {A} (l1 l2 : list A) :
  l1 `prefix_of` l2 ↔ ∀ i x, l1 !! i = Some x → l2 !! i = Some x.
Proof.
  split.
  - intros [k ->] i x Hi. by apply lookup_app_l_Some.
  - revert l2. induction l1 as [|x l1 IH]; intros l2 Hall.
    + apply prefix_nil.
    + destruct l2 as [|y l2]; [by specialize (Hall 0%nat x eq_refl)|].
      pose proof (Hall 0%nat x eq_refl) as [= ->].
      apply prefix_cons, IH. intros i z Hi. exact (Hall (S i) z Hi).
Qed.

Lemma js_split_not_nil sep s : js_split sep s ≠ [].
Proof.
  destruct s as [|c s]; simpl; [done|].
  destruct (Ascii.eqb c sep); [done|]. by destruct (js_split sep s).
Qed.

Lemma path_tokens_cons_sep sep s :
  path_tokens sep (String sep s) = path_tokens sep s.
Proof.
  unfold path_tokens. simpl. rewrite Ascii.eqb_refl.
  rewrite filter_cons_False; [done|]. simpl. lia.
Qed.

(** A separator at the end adds no token. *)
Lemma path_tokens_trailing_sep sep s :
  path_tokens sep (s +:+ String sep EmptyString) = path_tokens sep s.
Proof.
  unfold path_tokens.
  assert (js_split sep (s +:+ String sep EmptyString)
          = js_split sep s ++ [EmptyString]) as ->.
  { induction s as [|c s IH]; simpl.
    - by rewrite Ascii.eqb_refl.
    - destruct (Ascii.eqb c sep); [by rewrite IH|].
      rewrite IH. pose proof (js_split_not_nil sep s).
      by destruct (js_split sep s). }
  rewrite filter_app, filter_cons_False, filter_nil, app_nil_r; [done|].
  simpl. lia.
Qed.

Lemma string_append_neq (s t : string) : t ≠ EmptyString → (s +:+ t)%string ≠ s.
Proof.
  intros Ht Heq.
  assert (String.length (s +:+ t) = String.length s) as Hlen by by rewrite Heq.
  rewrite string_length_append in Hlen. destruct t; [done|]. simpl in Hlen. lia.
Qed.

Lemma isChildPath_tokens sep platform_normalize child parent normalize :
  isChildPath sep platform_normalize child parent normalize = true
  ↔ child ≠ parent
    ∧ path_tokens sep (default platform_normalize normalize parent)
      `prefix_of` path_tokens sep (default platform_normalize normalize child).
Proof.
  unfold isChildPath. case_decide as Heq.
  - split; [done|]. by intros [? _].
  - rewrite every_at_index_lookup, prefix_of_lookup. by split; [|intros [_ ?]].
Qed.

(** X17.  [isChildPath] holds exactly when the two paths, as given, are not
    the same string and the tokens of the normalized parent are a prefix
    of the tokens of the normalized child; empty tokens (doubled, leading
    and trailing separators) do not count. *)
Theorem isChildPath_prefix sep platform_normalize child parent normalize :
  let norm := default platform_normalize normalize in
  isChildPath sep platform_normalize child parent normalize = true
  ↔ child ≠ parent
    ∧ path_tokens sep (norm parent) `prefix_of` path_tokens sep (norm child).
Proof. intros norm. apply isChildPath_tokens. Qed.

(** X18.  What the comparison of the paths as given lets through: with a
    normalize function that keeps a separator at the end, a directory
    written with that separator is reported as a sub-directory of itself;
    and every path is reported as a sub-directory of a parent that has no
    token (the root), the parent as given apart. *)
Theorem isChildPath_same_directory sep platform_normalize normalize child parent :
  let norm := default platform_normalize normalize in
  (norm (parent +:+ String sep EmptyString) = norm parent +:+ String sep EmptyString →
   isChildPath sep platform_normalize (parent +:+ String sep EmptyString) parent
               normalize = true)
  ∧ (path_tokens sep (norm parent) = [] → child ≠ parent →
     isChildPath sep platform_normalize child parent normalize = true).
Proof.
  intros norm. split.
  - intros Hkeep. apply isChildPath_tokens. fold norm. split.
    + by apply string_append_neq.
    + by rewrite Hkeep, path_tokens_trailing_sep.
  - intros Hroot Hne. apply isChildPath_tokens. fold norm. split; [done|].
    rewrite Hroot. apply prefix_nil.
Qed.

(** X19.  On versions that parse, [isMajorDowngrade] compares the pairs of
    major and minor number lexicographically: it is true exactly when the
    previous pair is greater.  So it is false on equal versions and on
    versions that differ in the patch number only, it cannot hold in both
    directions, and it is transitive.  When a version does not parse the
    call throws. *)
Theorem isMajorDowngrade_order semver_major semver_minor previous current
        majorL minorL majorR minorR :
  semver_major previous = Some majorL → semver_minor previous = Some minorL →
  semver_major current = Some majorR → semver_minor current = Some minorR →
  (isMajorDowngrade semver_major semver_minor previous current = Some true
   ↔ majorL > majorR ∨ (majorL = majorR ∧ minorL > minorR))
  ∧ isMajorDowngrade semver_major semver_minor previous previous = Some false
  ∧ (majorL = majorR → minorL = minorR →
     isMajorDowngrade semver_major semver_minor previous current = Some false)
  ∧ (isMajorDowngrade semver_major semver_minor previous current = Some true →
     isMajorDowngrade semver_major semver_minor current previous = Some false)
  ∧ (∀ next majorN minorN,
        semver_major next = Some majorN → semver_minor next = Some minorN →
        isMajorDowngrade semver_major semver_minor previous current = Some true →
        isMajorDowngrade semver_major semver_minor current next = Some true →
        isMajorDowngrade semver_major semver_minor previous next = Some true)
  ∧ (∀ version,
        semver_major version = None →
        isMajorDowngrade semver_major semver_minor version current = None
        ∧ isMajorDowngrade semver_major semver_minor previous version = None).
Proof.
  intros HML HmL HMR HmR.
  assert (∀ a b Ma ma Mb mb,
             semver_major a = Some Ma → semver_minor a = Some ma →
             semver_major b = Some Mb → semver_minor b = Some mb →
             isMajorDowngrade semver_major semver_minor a b
             = Some (bool_decide (Ma > Mb ∨ (Ma = Mb ∧ ma > mb)))) as Hval.
  { intros a b Ma ma Mb mb H1 H2 H3 H4. unfold isMajorDowngrade.
    rewrite H1, H3. destruct (Z.eqb_spec Ma Mb) as [->|Hne]; simpl.
    - rewrite H2, H4. f_equal.
      destruct (Z.gtb_spec ma mb); symmetry;
        [apply bool_decide_eq_true|apply bool_decide_eq_false]; lia.
    - f_equal. destruct (Z.gtb_spec Ma Mb); symmetry;
        [apply bool_decide_eq_true|apply bool_decide_eq_false]; lia. }
  rewrite (Hval _ _ _ _ _ _ HML HmL HMR HmR), (Hval _ _ _ _ _ _ HML HmL HML HmL),
    (Hval _ _ _ _ _ _ HMR HmR HML HmL).
  split; [|split; [|split; [|split; [|split]]]].
  - split; [intros [= H]; by apply bool_decide_eq_true in H|].
    intros H. f_equal. by apply bool_decide_eq_true.
  - f_equal. apply bool_decide_eq_false. lia.
  - intros -> ->. f_equal. apply bool_decide_eq_false. lia.
  - intros [= H%bool_decide_eq_true]. f_equal. apply bool_decide_eq_false. lia.
  - intros next majorN minorN HMN HmN.
    rewrite (Hval _ _ _ _ _ _ HMR HmR HMN HmN), (Hval _ _ _ _ _ _ HML HmL HMN HmN).
    intros [= H1%bool_decide_eq_true] [= H2%bool_decide_eq_true].
    f_equal. apply bool_decide_eq_true. lia.
  - intros version Hnone. unfold isMajorDowngrade. by rewrite Hnone, HML.
Qed.

(** * The further properties on the sample platform *)

Section MoreOnSample.
Import Sample.

(** X2 on the sample: a restore and a nop, with no target directory. *)
Lemma restore_and_nop_touch_no_file_witness :
  let acts := [decision "a.txt" "ModA" Arestore 0 0;
               decision "c.txt" "ModC" Anop 0 0] in
  (∀ d, d ∈ acts → IFileEntry.action d = Arestore ∨ IFileEntry.action d = Anop)
  ∧ ∃ w', applyFileActions (api None) (Some "profile1") "staging" None manifest
                           (Some acts) world
          = (Resolved [b_txt; c_txt], w')
          ∧ w_fs w' = files ∧ w_ops w' = [] ∧ w_log w' = [].
Proof.
  intros acts.
  assert (∀ d, d ∈ acts →
               IFileEntry.action d = Arestore ∨ IFileEntry.action d = Anop) as Hall.
  { intros d Hd. unfold acts in Hd.
    repeat (apply elem_of_cons in Hd as [->|Hd]); [by left|by right|].
    by apply elem_of_nil in Hd. }
  split; [exact Hall|].
  destruct (restore_and_nop_touch_no_file (api None) (Some "profile1") "staging"
              None manifest acts world Hall) as (w' & Hrun & Hfs & Hops & Hlog).
  exists w'. split; [exact Hrun|]. by repeat split.
Defined.


(** X4 on the sample. *)
Lemma returned_manifest_is_sublist_witness :
  let run := applyFileActions (api None) (Some "profile1") "staging" (Some "game")
                              manifest (Some decisions) world in
  run = (Resolved [c_txt], run.2)
  ∧ [c_txt] `sublist_of` manifest
  ∧ NoDup (IDeployedFile.relPath <$> [c_txt]).
Proof.
  intros run.
  assert (run = (Resolved [c_txt], run.2)) as Hrun by (vm_compute; reflexivity).
  destruct (returned_manifest_is_sublist (api None) (Some "profile1") "staging"
              (Some "game") manifest decisions world _ _ Hrun) as (Hsub & Hnd & _).
  split; [exact Hrun|]. split; [exact Hsub|]. apply Hnd.
  repeat (apply NoDup_cons; split;
          [intros Hin; repeat (apply elem_of_cons in Hin as [Hin|Hin];
                               [discriminate Hin|]);
           by apply elem_of_nil in Hin|]).
  apply NoDup_nil_2.
Defined.

(** X5 on the sample: the import group holds the import of [b.txt]; there
    is no group for drop. *)
Lemma actionGroups_lookup_witness :
  actionGroups decisions !! "import" = Some [decision "b.txt" "ModB" Aimport 0 0]
  ∧ actionGroups decisions !! "drop" = None.
Proof.
  split.
  - apply actionGroups_lookup. exists Aimport. by repeat split.
  - destruct (actionGroups decisions !! "drop") as [l|] eqn:E; [|done].
    apply actionGroups_lookup in E as (a & Ha & _ & -> & Hnil).
    destruct a; try discriminate Ha. by destruct Hnil.
Defined.

(** X6 on the sample: without a profile id the events carry the game of the
    active profile. *)
Lemma events_fall_back_to_active_game_witness :
  let r := applyFileActions (api None) None "staging" (Some "game") manifest
                            (Some decisions) world in
  (None : option string) ≫= profileById (w_state world) = None
  ∧ ∃ evs, w_events r.2 = evs
           ∧ ∀ ev, ev ∈ evs → ev_gameId ev = Some "skyrim".
Proof.
  intros r. split; [reflexivity|].
  destruct (events_fall_back_to_active_game (api None) None "staging"
              (Some "game") manifest (Some decisions) world eq_refl)
    as (evs & Hev & Hgame).
  exists evs. split; [exact Hev|]. exact Hgame.
Defined.

(** X7 on the sample: [ModB] is affected first, then [ModC]. *)
Lemma events_in_order_of_first_occurrence_witness :
  let run := applyFileActions (api None) (Some "profile1") "staging" (Some "game")
                              manifest (Some decisions) world in
  run = (Resolved [c_txt], run.2)
  ∧ w_events run.2
    = [mkEvent "mod-content-changed" (Some "profile1") "ModB";
       mkEvent "mod-content-changed" (Some "profile1") "ModC"].
Proof.
  intros run.
  assert (run = (Resolved [c_txt], run.2)) as Hrun by (vm_compute; reflexivity).
  split; [exact Hrun|].
  exact (events_in_order_of_first_occurrence (api None) (Some "profile1")
           "staging" (Some "game") manifest decisions world _ _ Hrun).
Defined.


(** X10 on the sample: [a.txt] is reported for the one mod type. *)
Lemma detection_result_witness :
  let run := checkForExternalChanges (api None) activator (Some "profile1")
               "staging" {[ "" := "game" ]} 1%positive world_deleted in
  let found := [IFileChange.mk "a.txt" "ModA" "deleted"] in
  passProfile (w_state world_deleted) (Some "profile1") = Some profile1
  ∧ w_heap world_deleted !! 1%positive = Some {[ "" := manifest ]}
  ∧ run = (Resolved {[ "" := found ]}, run.2)
  ∧ w_queries run.2 = [mkQuery "skyrim" "staging" (Some "game") manifest]
  ∧ externalChanges activator "skyrim" "staging" (Some "game") manifest
                    (w_fs world_deleted) = inr found.
Proof.
  intros run found.
  assert (passProfile (w_state world_deleted) (Some "profile1") = Some profile1)
    as Hp by reflexivity.
  assert (w_heap world_deleted !! 1%positive = Some {[ "" := manifest ]})
    as Hobj by reflexivity.
  assert (run = (Resolved {[ "" := found ]}, run.2)) as Hrun
      by (vm_compute; reflexivity).
  destruct (detection_result (api None) activator (Some "profile1") "staging"
              {[ "" := "game" ]} 1%positive {[ "" := manifest ]} profile1
              world_deleted _ _ Hp Hobj Hrun) as (Hq & _ & Hiff).
  split; [exact Hp|]. split; [exact Hobj|]. split; [exact Hrun|]. split.
  - rewrite Hq. vm_compute. reflexivity.
  - destruct (proj1 (Hiff "" found) (lookup_singleton_eq _ _))
      as (_ & _ & mf & Hmf & Hext).
    rewrite lookup_singleton_eq in Hmf. injection Hmf as <-.
    rewrite lookup_singleton_eq in Hext. exact Hext.
Defined.

(** X12 on the sample: discrepancies, and a dialog that answers
    undefined. *)
Lemma undefined_answer_applies_nothing_witness :
  let check := checkForExternalChanges (api None) activator (Some "profile1")
                 "staging" {[ "" := "game" ]} 1%positive world_deleted in
  let r := dealWithExternalChanges (api None) activator (Some "profile1")
             "staging" {[ "" := "game" ]} 1%positive world_deleted in
  let found := {[ "" := [IFileChange.mk "a.txt" "ModA" "deleted"] ]} in
  check = (Resolved found, check.2)
  ∧ dom found ≠ ∅
  ∧ w_heap world_deleted !! 1%positive = Some {[ "" := manifest ]}
  ∧ r.1 = Rejected TypeError
  ∧ w_heap r.2 = w_heap world_deleted ∧ w_ops r.2 = [].
Proof.
  intros check r found.
  assert (check = (Resolved found, check.2)) as Hcheck
      by (vm_compute; reflexivity).
  assert (dom found ≠ ∅) as Hdom.
  { unfold found. rewrite dom_singleton_L. apply non_empty_singleton_L. }
  assert (w_heap world_deleted !! 1%positive = Some {[ "" := manifest ]})
    as Hobj by reflexivity.
  destruct (undefined_answer_applies_nothing (api None) activator
              (Some "profile1") "staging" {[ "" := "game" ]} 1%positive
              {[ "" := manifest ]} found world_deleted _ Hcheck Hdom eq_refl Hobj)
    as ((_ & Hops & _ & _ & Hheap) & Hrej & _).
  split; [exact Hcheck|]. split; [exact Hdom|]. split; [exact Hobj|].
  split; [|by split].
  apply Hrej. apply insert_non_empty.
Defined.

(** X13 on the sample: discrepancies, and a dialog that is canceled. *)
Lemma rejected_dialog_applies_nothing_witness :
  let canceled := mkApi (fun _ => inl (OtherError "canceled")) in
  let check := checkForExternalChanges canceled activator (Some "profile1")
                 "staging" {[ "" := "game" ]} 1%positive world_deleted in
  let r := dealWithExternalChanges canceled activator (Some "profile1")
             "staging" {[ "" := "game" ]} 1%positive world_deleted in
  let found := {[ "" := [IFileChange.mk "a.txt" "ModA" "deleted"] ]} in
  check = (Resolved found, check.2)
  ∧ dom found ≠ ∅
  ∧ r.1 = Rejected (OtherError "canceled")
  ∧ w_heap r.2 = w_heap world_deleted ∧ w_ops r.2 = [].
Proof.
  intros canceled check r found.
  assert (check = (Resolved found, check.2)) as Hcheck
      by (vm_compute; reflexivity).
  assert (dom found ≠ ∅) as Hdom.
  { unfold found. rewrite dom_singleton_L. apply non_empty_singleton_L. }
  destruct (rejected_dialog_applies_nothing canceled activator (Some "profile1")
              "staging" {[ "" := "game" ]} 1%positive found
              (OtherError "canceled") world_deleted _ Hcheck Hdom eq_refl)
    as (Hrej & _ & Hops & _ & _ & Hheap).
  split; [exact Hcheck|]. split; [exact Hdom|]. split; [exact Hrej|].
  by split.
Defined.


(** X15 on a sample array. *)
Lemma countIf_counts_witness :
  (∀ x, x ∈ [2; 4]%nat → Nat.even x = true)
  ∧ countIf [2; 4]%nat Nat.even = 2%nat.
Proof.
  assert (∀ x, x ∈ [2; 4]%nat → Nat.even x = true) as Hall.
  { intros x Hx. repeat (apply elem_of_cons in Hx as [->|Hx]); try done.
    by apply elem_of_nil in Hx. }
  split; [exact Hall|].
  destruct (countIf_counts Nat.even [2; 4]%nat []) as (_ & _ & Hiff & _).
  exact (proj2 Hiff Hall).
Defined.

(** X16 on a sample string of sixteen characters. *)
Lemma midClip_length_witness :
  4 ≤ 10 < Z.of_nat (String.length "abcdefghijklmnop")
  ∧ midClip "abcdefghijklmnop" 10 = "abc...mnop"
  ∧ 3 < 4 ∧ 3 < Z.of_nat (String.length "abcdefghijklmnop")
  ∧ 3 < Z.of_nat (String.length (midClip "abcdefghijklmnop" 3)).
Proof.
  assert (4 ≤ 10 < Z.of_nat (String.length "abcdefghijklmnop")) as H1
      by (simpl; lia).
  assert (3 < Z.of_nat (String.length "abcdefghijklmnop")) as H2 by (simpl; lia).
  destruct (midClip_length "abcdefghijklmnop" 10) as (_ & Hclip & _).
  destruct (midClip_length "abcdefghijklmnop" 3) as (_ & _ & Hshort).
  split; [exact H1|]. split; [exact (proj1 (Hclip H1))|].
  split; [lia|]. split; [exact H2|]. apply Hshort; [lia|exact H2].
Defined.

(** X17 on sample paths. *)
Lemma isChildPath_prefix_witness :
  "/a/b/c" ≠ "/a/b"
  ∧ path_tokens "/"%char "/a/b" `prefix_of` path_tokens "/"%char "/a/b/c"
  ∧ isChildPath "/"%char id "/a/b/c" "/a/b" None = true.
Proof.
  assert ("/a/b/c" ≠ "/a/b") as Hne by done.
  assert (path_tokens "/"%char "/a/b" `prefix_of` path_tokens "/"%char "/a/b/c") as Hpre
      by (by exists ["c"]).
  split; [exact Hne|]. split; [exact Hpre|].
  apply (isChildPath_prefix "/"%char id "/a/b/c" "/a/b" None). by split.
Defined.

(** X18 on a sample path. *)
Lemma isChildPath_same_directory_witness :
  isChildPath "/"%char id "/a/b/" "/a/b" None = true
  ∧ path_tokens "/"%char "/" = [] ∧ "/x" ≠ "/"
  ∧ isChildPath "/"%char id "/x" "/" None = true.
Proof.
  destruct (isChildPath_same_directory "/"%char id None "/x" "/a/b") as [Hself _].
  destruct (isChildPath_same_directory "/"%char id None "/x" "/") as [_ Hroot].
  split; [exact (Hself eq_refl)|]. split; [reflexivity|]. split; [done|].
  by apply Hroot.
Defined.

(** X19 on sample versions. *)
Lemma isMajorDowngrade_order_witness :
  let major (v : string) : option Z :=
    if decide (v = "1.2.3") then Some 1
    else if decide (v = "1.1.9") then Some 1 else None in
  let minor (v : string) : option Z :=
    if decide (v = "1.2.3") then Some 2
    else if decide (v = "1.1.9") then Some 1 else None in
  major "1.2.3" = Some 1 ∧ minor "1.2.3" = Some 2
  ∧ major "1.1.9" = Some 1 ∧ minor "1.1.9" = Some 1
  ∧ isMajorDowngrade major minor "1.2.3" "1.1.9" = Some true
  ∧ isMajorDowngrade major minor "1.1.9" "1.2.3" = Some false.
Proof.
  intros major minor.
  destruct (isMajorDowngrade_order major minor "1.2.3" "1.1.9" 1 2 1 1
              eq_refl eq_refl eq_refl eq_refl) as (Hiff & _ & _ & Hasym & _).
  assert (isMajorDowngrade major minor "1.2.3" "1.1.9" = Some true) as Hdown
      by (apply Hiff; right; split; [done|lia]).
  split; [reflexivity|]. split; [reflexivity|]. split; [reflexivity|].
  split; [reflexivity|]. split; [exact Hdown|exact (Hasym Hdown)].
Defined.
End MoreOnSample.
